(** * stdlib-js/random-base-cauchy: a shallow embedding of [lib/validate.js]
      and [lib/factory.js]

    JavaScript numbers are IEEE-754 binary64 values, modelled by Rocq's
    primitive floats.  Typed-array buffers live in a heap indexed by
    location, so that two generators built with [copy: false] can alias the
    same buffer.  Code that throws runs in a small state-and-exception monad
    over the world. *)

From Stdlib Require Import ZArith Floats.
From stdpp Require Import base option list strings gmap.

Local Open Scope Z_scope.
Local Open Scope string_scope.
Local Open Scope list_scope.

(** ** JavaScript values *)

(** Callables the factory can be handed or can expose: a function written by
    the caller, or the built-in uniform generator that sits under an
    internally constructed normal generator ([rnorm.PRNG]).  Whatever is
    handed in as [prng] is opaque: drawing through it changes the caller's
    state only. *)
Inductive Callable :=
| UserFunction (id : nat)
| UniformOf (gen : nat).

(** Heap location of a [Uint32Array]. *)
Definition loc := nat.

#[warnings="-register-all"]
Inductive JsValue :=
| JsUndefined
| JsNull
| JsBoolean (b : bool)
| JsNumber (x : float)
| JsNumberObject (x : float)
| JsString (s : string)
| JsFunction (f : Callable)
| JsUint32Array (l : loc)
| JsArray (elems : list JsValue)
| JsObject (props : gmap string JsValue).

(** [void 0] *)
Definition is_undefined (v : JsValue) : bool :=
  match v with JsUndefined => true | _ => false end.

(** ** Assertion helpers required by the two modules *)

(** [@stdlib/assert-is-number].isPrimitive: [typeof value === 'number']. *)
Definition isNumber (v : JsValue) : bool :=
  match v with JsNumber _ => true | _ => false end.

(** [@stdlib/assert-is-nan]: a number primitive or a [Number] object whose
    value is NaN. *)
Definition isnan_value (v : JsValue) : bool :=
  match v with
  | JsNumber x | JsNumberObject x => PrimFloat.is_nan x
  | _ => false
  end.

(** [@stdlib/assert-is-positive-number].isPrimitive: a number primitive
    [> 0.0]. *)
Definition isPositive (v : JsValue) : bool :=
  match v with
  | JsNumber x => PrimFloat.ltb PrimFloat.zero x
  | _ => false
  end.

(** [@stdlib/math-base-assert-is-nan]: [x !== x]. *)
Definition isnan (x : float) : bool := PrimFloat.is_nan x.

(** [@stdlib/assert-is-plain-object] *)
Definition isObject (v : JsValue) : bool :=
  match v with JsObject _ => true | _ => false end.

(** [@stdlib/assert-is-function]: [typeof value === 'function']. *)
Definition isFunction (v : JsValue) : bool :=
  match v with JsFunction _ => true | _ => false end.

(** [@stdlib/assert-has-own-property] *)
Definition hasOwnProp (v : JsValue) (key : string) : bool :=
  match v with
  | JsObject props => bool_decide (is_Some (props !! key))
  | _ => false
  end.

(** Property read [v.key]; a missing property reads as [undefined]. *)
Definition get_prop (v : JsValue) (key : string) : JsValue :=
  match v with
  | JsObject props => default JsUndefined (props !! key)
  | _ => JsUndefined
  end.

(** JavaScript truthiness, for [opts && opts.prng]. *)
Definition truthy (v : JsValue) : bool :=
  match v with
  | JsUndefined | JsNull => false
  | JsBoolean b => b
  | JsNumber x => negb (PrimFloat.is_nan x || PrimFloat.eqb x PrimFloat.zero)
  | JsString s => negb (String.eqb s "")
  | _ => true
  end.

(** ** Errors *)

(** An error object: its constructor, the message template handed to
    [format], and the values interpolated into it. *)
Inductive JsError :=
| TypeError (template : string) (values : list JsValue)
| RangeError (template : string) (values : list JsValue).

Definition msg_location : string :=
  "invalid argument. First argument must be a number and not NaN. Value: `%s`.".
Definition msg_scale : string :=
  "invalid argument. Second argument must be a positive number. Value: `%s`.".
Definition msg_options : string :=
  "invalid argument. Options argument must be an object. Value: `%s`.".
Definition msg_option_prng : string :=
  "invalid option. `%s` option must be a pseudorandom number generator function. Option: `%s`.".

(** The error kinds of the specification, as the concrete errors the code
    builds. *)
Definition InvalidLocation (x0 : JsValue) : JsError :=
  TypeError msg_location [x0].
Definition InvalidScale (gamma : JsValue) : JsError :=
  TypeError msg_scale [gamma].
Definition InvalidOptions (opts : JsValue) : JsError :=
  TypeError msg_options [opts].
Definition InvalidOptions_prng (prng : JsValue) : JsError :=
  TypeError msg_option_prng [JsString "prng"; prng].

(** ** lib/validate.js *)

Definition validate (x0 gamma : JsValue) : option JsError :=
  if negb (isNumber x0) || isnan_value x0 then
    Some (InvalidLocation x0)
  else if negb (isPositive gamma) then
    Some (InvalidScale gamma)
  else
    None.

(** A finite real: a number primitive that is neither NaN nor infinite. *)
Definition finite_number (v : JsValue) : bool :=
  match v with JsNumber x => PrimFloat.is_finite x | _ => false end.

(** What the validator accepts as a location: any number primitive but NaN. *)
Definition location_ok (v : JsValue) : bool :=
  isNumber v && negb (isnan_value v).

(** ** The classes of a binary64 value, on its specification *)

Definition sf_is_nan (x : spec_float) : bool :=
  match x with S754_nan => true | _ => false end.
Definition sf_is_zero (x : spec_float) : bool :=
  match x with S754_zero _ => true | _ => false end.
Definition sf_is_infinity (x : spec_float) : bool :=
  match x with S754_infinity _ => true | _ => false end.

(** ** The external collaborator

    The standard-normal generator ([@stdlib/random-base-improved-ziggurat])
    and the Mersenne Twister under it are other packages.  Their algorithms
    enter the model as parameters: what one normal draw does to the words of
    a state buffer, which buffers are well-formed states, how a seed becomes
    a state, and what a draw through a caller-supplied [prng] does to the
    caller's own state. *)
Class Collaborator := {
  ExtState : Type;
  normal_step : list Z -> float * list Z;
  verify_state : list Z -> bool;
  seed_state : JsValue -> option (list Z);
  default_state : nat -> list Z;
  seed_section : list Z -> list Z;
  ext_normal : Callable -> ExtState -> float * ExtState
}.

(** The part of the collaborator's contract the proofs rely on: the states it
    builds and the states it steps to are states it accepts back. *)
Class CollaboratorLaws (C : Collaborator) := {
  step_valid : forall c, verify_state c = true ->
               verify_state (normal_step c).2 = true;
  seed_valid : forall v c, seed_state v = Some c -> verify_state c = true;
  default_valid : forall n, verify_state (default_state n) = true
}.

Section Model.
Context {C : Collaborator}.

(** ** The world *)

(** Private variables of one underlying generator: either the state buffer
    it currently points to and its [copy] option, or the caller's [prng]. *)
Inductive Source :=
| Internal (STATE : loc) (copy : bool)
| External (prng : Callable).

Record World := mkWorld {
  heap : list (list Z);
  gens : list Source;
  ext : ExtState;
  entropy : nat
}.

Definition with_heap (h : list (list Z)) (w : World) : World :=
  mkWorld h (gens w) (ext w) (entropy w).
Definition with_gens (g : list Source) (w : World) : World :=
  mkWorld (heap w) g (ext w) (entropy w).
Definition with_ext (e : ExtState) (w : World) : World :=
  mkWorld (heap w) (gens w) e (entropy w).
Definition with_entropy (n : nat) (w : World) : World :=
  mkWorld (heap w) (gens w) (ext w) n.

(** ** Computations that read and write the world and may throw *)

Inductive Outcome (A : Type) :=
| Return (a : A) (w : World)
| Throw (e : JsError) (w : World).
Arguments Return {A} a w.
Arguments Throw {A} e w.

Definition M (A : Type) : Type := World -> Outcome A.

Definition ret {A} (a : A) : M A := fun w => Return a w.
Definition throw {A} (e : JsError) : M A := fun w => Throw e w.
Definition bind {A B} (m : M A) (k : A -> M B) : M B :=
  fun w => match m w with
           | Return a w' => k a w'
           | Throw e w' => Throw e w'
           end.

Notation "'let!' x ':=' m 'in' k" := (bind m (fun x => k))
  (at level 10, x name, m at level 100, k at level 200).

Definition alloc (c : list Z) : M loc :=
  fun w => Return (length (heap w)) (with_heap (heap w ++ [c]) w).
Definition read (l : loc) : M (list Z) :=
  fun w => Return (default [] (heap w !! l)) w.
Definition write (l : loc) (c : list Z) : M unit :=
  fun w => Return tt (with_heap (<[l := c]> (heap w)) w).

(** The words of a typed array the caller hands in; a reference to no
    buffer of the heap is no typed array. *)
Definition read_array (v : JsValue) : M (option (list Z)) :=
  fun w => match v with
           | JsUint32Array l => Return (heap w !! l) w
           | _ => Return None w
           end.

(** A JavaScript number holding a small non-negative integer. *)
Definition number_of_Z (z : Z) : float := PrimFloat.of_uint63 (Uint63.of_Z z).
Definition number_of_nat (n : nat) : JsValue := JsNumber (number_of_Z (Z.of_nat n)).

(** ** The underlying normal generator *)

Definition msg_option_copy : string :=
  "invalid option. `%s` option must be a boolean. Option: `%s`.".
Definition msg_option_state : string :=
  "invalid option. `%s` option must be a Uint32Array. Option: `%s`.".
Definition msg_option_seed : string :=
  "invalid option. `%s` option must be a valid seed. Option: `%s`.".
Definition msg_state : string :=
  "invalid argument. Must provide a valid state. Value: `%s`.".

Definition InvalidState (s : JsValue) : JsError := RangeError msg_state [s].

(** The handle [rnorm]: the generator's private variables live in the world
    at [rn_gen]; [PRNG] is its [PRNG] property. *)
Record Rnorm := mkRnorm { rn_gen : nat; PRNG : Callable }.

(** Modelled from the spec: construction of an underlying generator object
    (section 3), whose private variables are a new entry of the world. *)
Definition new_source (s : Source) : M nat :=
  fun w => Return (length (gens w)) (with_gens (gens w ++ [s]) w).

Definition new_internal (STATE : loc) (copy : bool) : M Rnorm :=
  let! g := new_source (Internal STATE copy) in
  ret (mkRnorm g (UniformOf g)).

Definition new_external (prng : Callable) : M Rnorm :=
  let! g := new_source (External prng) in
  ret (mkRnorm g prng).

(** Modelled from the spec: default seeding (section 4.4, form 1), with the
    next seed the environment hands out. *)
Definition default_seeded (copy : bool) : M Rnorm :=
  let! c := (fun w => Return (default_state (entropy w))
                             (with_entropy (S (entropy w)) w)) in
  let! l := alloc c in
  new_internal l copy.

(** Modelled from the spec: the factory of the underlying normal generator,
    which is not part of this repository.  Section 4.4: the recognized keys
    are [prng], [seed], [state] and [copy] (default true); one
    state-initialization path is taken, with precedence [prng] > [state] >
    [seed] > default; with [copy] a supplied state is copied before use,
    without it the generator works on the caller's buffer; unrecognized keys
    are ignored. *)
Definition randn (options : option JsValue) : M Rnorm :=
  match options with
  | None => default_seeded true
  | Some o =>
    if negb (isObject o) then throw (InvalidOptions o) else
    let! copy :=
      (if hasOwnProp o "copy" then
         match get_prop o "copy" with
         | JsBoolean b => ret b
         | v => throw (TypeError msg_option_copy [JsString "copy"; v])
         end
       else ret true) in
    if hasOwnProp o "prng" then
      match get_prop o "prng" with
      | JsFunction f => new_external f
      | v => throw (InvalidOptions_prng v)
      end
    else if hasOwnProp o "state" then
      let! a := read_array (get_prop o "state") in
      match get_prop o "state", a with
      | JsUint32Array l, Some c =>
        if verify_state c then
          if copy then (let! l' := alloc c in new_internal l' copy)
          else new_internal l copy
        else throw (InvalidState (JsUint32Array l))
      | v, _ => throw (TypeError msg_option_state [JsString "state"; v])
      end
    else if hasOwnProp o "seed" then
      match seed_state (get_prop o "seed") with
      | Some c => let! l := alloc c in new_internal l copy
      | None => throw (TypeError msg_option_seed [JsString "seed"; get_prop o "seed"])
      end
    else default_seeded copy
  end.

Definition msg_not_callable : string := "%s is not a function".

(** Modelled from the spec: one call of the underlying normal generator
    (section 3: a callable producing a standard-normal draw, whose state is
    the buffer it points to). *)
Definition rnorm_call (rnorm : Rnorm) : M float :=
  fun w =>
    match gens w !! rn_gen rnorm with
    | Some (Internal l _) =>
      let '(x, c) := normal_step (default [] (heap w !! l)) in
      Return x (with_heap (<[l := c]> (heap w)) w)
    | Some (External f) =>
      let '(x, e) := ext_normal f (ext w) in
      Return x (with_ext e w)
    | None => Throw (TypeError msg_not_callable [JsString "rnorm"]) w
    end.

(** Modelled from the spec: the private variables behind a [rand] callable,
    if it is a built-in generator (section 3). *)
Definition source_of (rand : Callable) : M (option (nat * loc * bool)) :=
  fun w =>
    match rand with
    | UniformOf g =>
      match gens w !! g with
      | Some (Internal l copy) => Return (Some (g, l, copy)) w
      | _ => Return None w
      end
    | UserFunction _ => Return None w
    end.

(** Modelled from the spec: the [state] getter of [rand] (sections 3 and
    4.3), which returns a copy of the current snapshot, never the live
    buffer.  A caller's function has none of the state properties; they
    read as [undefined]. *)
Definition rand_get_state (rand : Callable) : M JsValue :=
  let! s := source_of rand in
  match s with
  | Some (_, l, _) =>
    let! c := read l in
    let! l' := alloc c in
    ret (JsUint32Array l')
  | None => ret JsUndefined
  end.

(** Modelled from the spec: the [seed] getter of [rand] (section 3), a copy
    of the seed words kept in the state. *)
Definition rand_get_seed (rand : Callable) : M JsValue :=
  let! s := source_of rand in
  match s with
  | Some (_, l, _) =>
    let! c := read l in
    let! l' := alloc (seed_section c) in
    ret (JsUint32Array l')
  | None => ret JsUndefined
  end.

(** Modelled from the spec: [seedLength], [stateLength] and [byteLength] of
    [rand] (section 3); a state word takes four bytes. *)
Definition rand_get_seedLength (rand : Callable) : M JsValue :=
  let! s := source_of rand in
  match s with
  | Some (_, l, _) =>
    let! c := read l in ret (number_of_nat (length (seed_section c)))
  | None => ret JsUndefined
  end.

Definition rand_get_stateLength (rand : Callable) : M JsValue :=
  let! s := source_of rand in
  match s with
  | Some (_, l, _) => let! c := read l in ret (number_of_nat (length c))
  | None => ret JsUndefined
  end.

Definition rand_get_byteLength (rand : Callable) : M JsValue :=
  let! s := source_of rand in
  match s with
  | Some (_, l, _) => let! c := read l in ret (number_of_nat (4 * length c))
  | None => ret JsUndefined
  end.

(** Modelled from the spec: the generator [g] is made to point to the
    buffer [l] (section 4.4, rebinding). *)
Definition rebind (g : nat) (l : loc) (copy : bool) : M unit :=
  fun w => Return tt (with_gens (<[g := Internal l copy]> (gens w)) w).

(** Modelled from the spec: assignment to [rand.state] (sections 4.3 and
    4.4).  A snapshot that is not a well-formed state is refused.  An owning
    generator ([copy] true) copies the words, into a new buffer when the
    length differs.  A sharing generator ([copy] false) writes the words into
    the buffer it shares when the lengths are equal, and otherwise rebinds to
    the assigned buffer itself. *)
Definition rand_set_state (rand : Callable) (s : JsValue) : M unit :=
  let! src := source_of rand in
  match src with
  | Some (g, l, copy) =>
    let! a := read_array s in
    match s, a with
    | JsUint32Array ls, Some c =>
      if negb (verify_state c) then throw (InvalidState s) else
      let! cur := read l in
      if copy then
        if bool_decide (length c = length cur) then write l c
        else (let! l' := alloc c in rebind g l' copy)
      else
        if bool_decide (length c = length cur) then write l c
        else rebind g ls copy
    | _, _ => throw (InvalidState s)
    end
  | None => ret tt
  end.

(** [@stdlib/array-to-json] on a [Uint32Array]: the JSON form of a typed
    array is its type name and the plain array of its elements. *)
Definition array_json (c : list Z) : JsValue :=
  JsObject (<["type" := JsString "Uint32Array"]>
           (<["data" := JsArray (map (fun z => JsNumber (number_of_Z z)) c)]> ∅)).

Definition typedarray2json (v : JsValue) : M JsValue :=
  match v with
  | JsUint32Array l => let! c := read l in ret (array_json c)
  | _ => throw (TypeError "invalid argument. Must provide a typed array. Value: `%s`." [v])
  end.

(** ** lib/cauchy.js *)

(** Modelled from the spec: [cauchy0], the transform of section 4.2, whose
    file is missing.  It draws [n1] and then [n2] from the standard-normal
    source and returns [x0 + gamma * (n1 / n2)]. *)
Definition cauchy0 (rnorm : Rnorm) (x0 gamma : float) : M float :=
  let! n1 := rnorm_call rnorm in
  let! n2 := rnorm_call rnorm in
  ret (PrimFloat.add x0 (PrimFloat.mul gamma (PrimFloat.div n1 n2))).

(** ** lib/factory.js *)

(** The returned generator: the function itself and the properties the
    factory defines on it.  A data property reads as its value; an accessor
    property runs its getter. *)
Record Generator := mkGenerator {
  invoke : list float -> M float;
  NAME : string;
  seed : M JsValue;
  seedLength : M JsValue;
  state : M JsValue;
  set_state : JsValue -> M unit;
  stateLength : M JsValue;
  byteLength : M JsValue;
  toJSON : M JsValue;
  g_PRNG : Callable
}.

(** [@stdlib/utils-constant-function] and [@stdlib/utils-noop] *)
Definition constantFunction {A} (v : A) : M A := ret v.
Definition noop {A} (_ : A) : M unit := ret tt.

(** ToNumber on what reaches arithmetic here: a number primitive is itself,
    [undefined] is NaN. *)
Definition to_number (v : JsValue) : float :=
  match v with JsNumber x => x | _ => PrimFloat.nan end.

(** The variables of one [factory] activation that its inner functions
    close over. *)
Record Env := mkEnv {
  e_x0 : JsValue;
  e_gamma : JsValue;
  e_opts : JsValue;
  e_rnorm : Rnorm;
  e_rand : Callable
}.

Definition getSeed (env : Env) : M JsValue := rand_get_seed (e_rand env).
Definition getSeedLength (env : Env) : M JsValue := rand_get_seedLength (e_rand env).
Definition getStateLength (env : Env) : M JsValue := rand_get_stateLength (e_rand env).
Definition getStateSize (env : Env) : M JsValue := rand_get_byteLength (e_rand env).
Definition getState (env : Env) : M JsValue := rand_get_state (e_rand env).
Definition setState (env : Env) (s : JsValue) : M unit := rand_set_state (e_rand env) s.

(** The value of the [NAME] property, which [toJSON] reads back. *)
Definition prng_NAME : string := "cauchy".

Definition toJSON_ (env : Env) : M JsValue :=
  let! st := rand_get_state (e_rand env) in
  let! js := typedarray2json st in
  let out := <["type" := JsString "PRNG"]> (∅ : gmap string JsValue) in
  let out := <["name" := JsString prng_NAME]> out in
  let out := <["state" := js]> out in
  let out :=
    if is_undefined (e_x0 env) then <["params" := JsArray []]> out
    else <["params" := JsArray [e_x0 env; e_gamma env]]> out in
  ret (JsObject out).

Definition cauchy1 (env : Env) (_ : list float) : M float :=
  cauchy0 (e_rnorm env) (to_number (e_x0 env)) (to_number (e_gamma env)).

(** An argument the caller left out is [undefined]: it is not NaN, it
    compares false with [0.0], and in arithmetic it is NaN. *)
Definition arg_isnan (a : option float) : bool :=
  match a with Some x => isnan x | None => false end.
Definition arg_leb_zero (a : option float) : bool :=
  match a with Some x => PrimFloat.leb x PrimFloat.zero | None => false end.
Definition arg_number (a : option float) : float :=
  default PrimFloat.nan a.

Definition cauchy2 (env : Env) (args : list float) : M float :=
  let x0 := args !! 0%nat in
  let gamma := args !! 1%nat in
  if arg_isnan x0 || arg_isnan gamma || arg_leb_zero gamma then
    ret PrimFloat.nan
  else
    cauchy0 (e_rnorm env) (arg_number x0) (arg_number gamma).

(** Lines 82-95 and 104-117: the same treatment of an options argument in
    the one-argument and in the three-argument form. *)
Definition source_from_options (opts : JsValue) : M Rnorm :=
  if negb (isObject opts) then throw (InvalidOptions opts) else
  if hasOwnProp opts "prng" then
    if negb (isFunction (get_prop opts "prng")) then
      throw (InvalidOptions_prng (get_prop opts "prng"))
    else randn (Some (JsObject (<["prng" := get_prop opts "prng"]> ∅)))
  else randn (Some opts).

(** Lines 122-148: choose the function, then define its properties. *)
Definition assemble (x0 gamma opts : JsValue) (rnorm : Rnorm) : Generator :=
  let env := mkEnv x0 gamma opts rnorm (PRNG rnorm) in
  let prng := if is_undefined x0 then cauchy2 env else cauchy1 env in
  if truthy opts && truthy (get_prop opts "prng") then
    mkGenerator prng prng_NAME
      (ret JsNull) (ret JsNull)
      (constantFunction JsNull) noop
      (ret JsNull) (ret JsNull)
      (constantFunction JsNull)
      (e_rand env)
  else
    mkGenerator prng prng_NAME
      (getSeed env) (getSeedLength env)
      (getState env) (setState env)
      (getStateLength env) (getStateSize env)
      (toJSON_ env)
      (e_rand env).

Definition factory (arguments : list JsValue) : M Generator :=
  match arguments with
  | [] =>
    let! rnorm := randn None in
    ret (assemble JsUndefined JsUndefined JsUndefined rnorm)
  | [opts] =>
    let! rnorm := source_from_options opts in
    ret (assemble JsUndefined JsUndefined opts rnorm)
  | x0 :: gamma :: rest =>
    match validate x0 gamma with
    | Some err => throw err
    | None =>
      match rest with
      | opts :: _ =>
        let! rnorm := source_from_options opts in
        ret (assemble x0 gamma opts rnorm)
      | [] =>
        let! rnorm := randn None in
        ret (assemble x0 gamma JsUndefined rnorm)
      end
    end
  end.

(** ** Scenarios and observations used in the statements *)

(** The options argument of a call of [factory], if it has one. *)
Definition options_of (arguments : list JsValue) : option JsValue :=
  match arguments with
  | [opts] => Some opts
  | _ :: _ :: opts :: _ => Some opts
  | _ => None
  end.

(** The generator was asked to run on a caller-supplied [prng]. *)
Definition external_prng (arguments : list JsValue) : bool :=
  match options_of arguments with
  | Some opts => hasOwnProp opts "prng"
  | None => false
  end.

(** The parameters bound at construction, if any. *)
Definition bound_params (arguments : list JsValue) : list JsValue :=
  match arguments with
  | x0 :: gamma :: _ => [x0; gamma]
  | _ => []
  end.

(** Successive invocations, one list of arguments each. *)
Fixpoint draws (g : Generator) (calls : list (list float)) : M (list float) :=
  match calls with
  | [] => ret []
  | a :: rest =>
    let! v := invoke g a in
    let! vs := draws g rest in
    ret (v :: vs)
  end.

(** Capture [state], draw, assign the captured snapshot back, draw again. *)
Definition replay (g : Generator) (calls : list (list float))
  : M (list float * list float) :=
  let! s := state g in
  let! first := draws g calls in
  let! _ := set_state g s in
  let! second := draws g calls in
  ret (first, second).

(** One generator draws, then another. *)
Definition draw_then_draw (g1 : Generator) (a : list float)
    (g2 : Generator) (b : list float) : M (float * float) :=
  let! v1 := invoke g1 a in
  let! v2 := invoke g2 b in
  ret (v1, v2).

(** What a computation hands back, without the world it leaves. *)
Definition result {A} (o : Outcome A) : JsError + A :=
  match o with
  | Return a _ => inr a
  | Throw e _ => inl e
  end.

(** The buffer a generator currently draws from, and its words. *)
Definition state_buffer (g : Generator) (w : World) : option (loc * list Z) :=
  match g_PRNG g with
  | UniformOf gen =>
    match gens w !! gen with
    | Some (Internal l _) =>
      match heap w !! l with
      | Some c => Some (l, c)
      | None => None
      end
    | _ => None
    end
  | UserFunction _ => None
  end.

(** The generator has a buffer, and the buffer holds a well-formed state. *)
Definition valid_state (g : Generator) (w : World) : Prop :=
  exists l c, state_buffer g w = Some (l, c) /\ verify_state c = true.

(** One Cauchy draw on the words of a state buffer. *)
Definition transform (x0 gamma : float) (c : list Z) : float * list Z :=
  let '(n1, c1) := normal_step c in
  let '(n2, c2) := normal_step c1 in
  (PrimFloat.add x0 (PrimFloat.mul gamma (PrimFloat.div n1 n2)), c2).

(** The per-call guard of the unbound form: [x0] or [gamma] is NaN, or
    [gamma <= 0.0]. *)
Definition invalid_params (x0 gamma : float) : bool :=
  isnan x0 || isnan gamma || PrimFloat.leb gamma PrimFloat.zero.

(** The parameters one invocation works with: the bound ones, or else the
    ones passed, when they pass the guard. *)
Definition call_params (arguments : list JsValue) (a : list float)
  : option (float * float) :=
  match arguments with
  | JsNumber x0 :: JsNumber gamma :: _ => Some (x0, gamma)
  | [] | [_] =>
    match a with
    | x0 :: gamma :: _ =>
      if invalid_params x0 gamma then None else Some (x0, gamma)
    | _ => None
    end
  | _ => None
  end.

(** One invocation on the words of a state buffer, for a generator whose
    closure holds [x0] and [gamma]. *)
Definition pure_invoke (x0 gamma : JsValue) (a : list float) (c : list Z)
  : float * list Z :=
  if is_undefined x0 then
    if arg_isnan (a !! 0%nat) || arg_isnan (a !! 1%nat) || arg_leb_zero (a !! 1%nat)
    then (PrimFloat.nan, c)
    else transform (arg_number (a !! 0%nat)) (arg_number (a !! 1%nat)) c
  else transform (to_number x0) (to_number gamma) c.

Fixpoint pure_draws (x0 gamma : JsValue) (calls : list (list float)) (c : list Z)
  : list float * list Z :=
  match calls with
  | [] => ([], c)
  | a :: rest =>
    let '(v, c1) := pure_invoke x0 gamma a c in
    let '(vs, c2) := pure_draws x0 gamma rest c1 in
    (v :: vs, c2)
  end.

(** The variables [x0], [gamma] and [opts] of a [factory] activation. *)
Definition closure_x0 (arguments : list JsValue) : JsValue :=
  match arguments with x0 :: _ :: _ => x0 | _ => JsUndefined end.
Definition closure_gamma (arguments : list JsValue) : JsValue :=
  match arguments with _ :: gamma :: _ => gamma | _ => JsUndefined end.
Definition closure_opts (arguments : list JsValue) : JsValue :=
  default JsUndefined (options_of arguments).

(** Two generators work on the same buffer [l], which holds the words [c],
    and neither of them owns it. *)
Definition shares (ga gb : Generator) (l : loc) (c : list Z) (w : World)
  : Prop :=
  exists gena genb,
    g_PRNG ga = UniformOf gena /\ g_PRNG gb = UniformOf genb /\
    gens w !! gena = Some (Internal l false) /\
    gens w !! genb = Some (Internal l false) /\
    heap w !! l = Some c.

(** While two generators share, their invocations draw from one stream:
    the second generator continues from the state the first one left. *)
Definition interleaves (ga gb : Generator) (xa gammaa xb gammab : JsValue)
    (l : loc) : Prop :=
  forall w c a b,
    shares ga gb l c w ->
    let ra := pure_invoke xa gammaa a c in
    let rb := pure_invoke xb gammab b ra.2 in
    exists w',
      draw_then_draw ga a gb b w = Return (ra.1, rb.1) w' /\
      shares ga gb l rb.2 w'.

(** Assigning one of them a well-formed snapshot that is as long as the
    shared buffer writes the snapshot into that buffer, for both. *)
Definition propagates (ga gb : Generator) (l : loc) : Prop :=
  forall w c ls cs,
    shares ga gb l c w ->
    heap w !! ls = Some cs -> verify_state cs = true ->
    length cs = length c ->
    exists w',
      set_state ga (JsUint32Array ls) w = Return tt w' /\
      shares ga gb l cs w'.

(** Assigning one of them a well-formed snapshot of another length rebinds
    it to the assigned buffer: the buffer of the other is left as it was,
    invocations of the rebound generator draw from the new words and no
    longer touch the other's buffer, and invocations of the other no longer
    touch the rebound generator's. *)
Definition detaches (ga gb : Generator) (xa gammaa xb gammab : JsValue)
    (l : loc) : Prop :=
  forall w c ls cs,
    shares ga gb l c w ->
    heap w !! ls = Some cs -> verify_state cs = true ->
    length cs <> length c ->
    exists w',
      set_state ga (JsUint32Array ls) w = Return tt w' /\
      ls <> l /\
      state_buffer ga w' = Some (ls, cs) /\
      state_buffer gb w' = Some (l, c) /\
      (forall a,
         exists w'',
           invoke ga a w' = Return (pure_invoke xa gammaa a cs).1 w'' /\
           state_buffer ga w'' = Some (ls, (pure_invoke xa gammaa a cs).2) /\
           state_buffer gb w'' = Some (l, c)) /\
      (forall b,
         exists w'',
           invoke gb b w' = Return (pure_invoke xb gammab b c).1 w'' /\
           state_buffer gb w'' = Some (l, (pure_invoke xb gammab b c).2) /\
           state_buffer ga w'' = Some (ls, cs)).

(** The generator is the one [factory] assembles around the built-in
    generator [gen], with [x0] and [gamma] in its closure. *)
Definition built_on (g : Generator) (x0 gamma : JsValue) (gen : nat) : Prop :=
  exists opts rnorm,
    g = assemble x0 gamma opts rnorm /\
    truthy opts && truthy (get_prop opts "prng") = false /\
    PRNG rnorm = UniformOf gen /\ rn_gen rnorm = gen.

(** The underlying generator a [factory] activation builds. *)
Definition source_for (arguments : list JsValue) : M Rnorm :=
  match options_of arguments with
  | Some opts => source_from_options opts
  | None => randn None
  end.

(** The validation a [factory] activation performs before anything else. *)
Definition validation (arguments : list JsValue) : option JsError :=
  match arguments with
  | x0 :: gamma :: _ => validate x0 gamma
  | _ => None
  end.

(** What a successful construction leaves in the world: one more underlying
    generator, run by the caller's [prng] or pointing to a buffer that holds
    a well-formed state. *)
Definition created (external : bool) (w : World) (rnorm : Rnorm) (w1 : World)
  : Prop :=
  rn_gen rnorm = length (gens w) /\
  if external then
    gens w1 = gens w ++ [External (PRNG rnorm)]
  else
    PRNG rnorm = UniformOf (rn_gen rnorm) /\
    exists l copy c,
      gens w1 = gens w ++ [Internal l copy] /\
      heap w1 !! l = Some c /\ verify_state c = true.

(** The same call of [factory] with another options argument. *)
Definition replace_options (arguments : list JsValue) (opts : JsValue)
  : list JsValue :=
  match arguments with
  | [_] => [opts]
  | x0 :: gamma :: _ :: rest => x0 :: gamma :: opts :: rest
  | _ => arguments
  end.

(** Construct, then invoke once. *)
Definition first_output (arguments : list JsValue) (a : list float) : M float :=
  let! g := factory arguments in
  invoke g a.

(** The keys of an options object the factory and its collaborator look at. *)
Definition recognized (key : string) : bool :=
  bool_decide (key ∈ ["prng"; "seed"; "state"; "copy"]).

(** ** Further scenarios *)

(** The call of [factory] that leaves the parameters out and keeps the
    options argument, if there is one. *)
Definition unbound_form (arguments : list JsValue) : list JsValue :=
  match options_of arguments with
  | Some opts => [opts]
  | None => []
  end.

(** Construct, then invoke several times. *)
Definition outputs (arguments : list JsValue) (calls : list (list float))
  : M (list float) :=
  let! g := factory arguments in
  draws g calls.

(** [{ state: s }], with [copy] left to its default. *)
Definition state_options (s : JsValue) : JsValue :=
  JsObject (<["state" := s]> ∅).

(** Read the [state] of a generator and build a new generator from it, as
    the README does with [factory({ 'state': cauchy.state })]. *)
Definition clone (g : Generator) : M Generator :=
  let! s := state g in
  factory [state_options s].

(** The options ask for a generator that owns its state: no [prng], and
    [copy] absent or true. *)
Definition owning (m : gmap string JsValue) : bool :=
  bool_decide (m !! "prng" = None) &&
  match m !! "copy" with
  | None => true
  | Some (JsBoolean b) => b
  | Some _ => false
  end.

(** The two infinities of opposite sign. *)
Definition opposite_infinities (x y : float) : bool :=
  PrimFloat.is_infinity x && PrimFloat.is_infinity y && negb (PrimFloat.eqb x y).

End Model.

Arguments Return {C A} a w.
Arguments Throw {C A} e w.

(** ** A small collaborator to run the model on

    A state is a buffer of two words or more: a draw counter, a linear
    congruential word, and seed words.  Caller function 0 stands for a
    [prng] under which every normal draw is 0.0, as a constant 0.5 is for a
    generator that starts from [u = 2 * prng() - 1]. *)
Module Toy.

Definition lcg (z : Z) : Z := (1103515245 * z + 12345) mod 4294967296.

Definition step (c : list Z) : float * list Z :=
  match c with
  | n :: x :: rest =>
    (PrimFloat.sub (number_of_Z (x mod 1000)) 499.5%float, (n + 1) :: lcg x :: rest)
  | _ => (PrimFloat.nan, c)
  end.

Definition verify (c : list Z) : bool := bool_decide (2 <= length c)%nat.

Definition of_seed (v : JsValue) : option (list Z) :=
  match v with
  | JsNumber x =>
    match Prim2SF x with
    | S754_finite false m e => Some [0; Z.shiftl (Z.pos m) e mod 4294967296]
    | _ => None
    end
  | _ => None
  end.

Definition of_entropy (n : nat) : list Z := [0; Z.of_nat n + 1].

Definition ext_step (f : Callable) (e : nat) : float * nat :=
  match f with
  | UserFunction 0%nat => (PrimFloat.zero, S e)
  | _ => (PrimFloat.sub (number_of_Z (Z.of_nat e)) 0.5%float, S e)
  end.

#[export] Instance collaborator : Collaborator := {|
  ExtState := nat;
  normal_step := step;
  verify_state := verify;
  seed_state := of_seed;
  default_state := of_entropy;
  seed_section := fun c => take 1 (drop 1 c);
  ext_normal := ext_step
|}.

(** The world before anything is built. *)
Definition w0 : World := mkWorld [] [] 0%nat 0%nat.

(** [{ seed: 12345 }], the unbound and the bound generator built with it
    in [w0], and the world either construction leaves. *)
Definition seed_options : JsValue :=
  JsObject (<["seed" := JsNumber 12345%float]> ∅).
Definition unbound_args : list JsValue := [seed_options].
Definition bound_args : list JsValue :=
  [JsNumber 2%float; JsNumber 3%float; seed_options].
Definition seeded : Rnorm := mkRnorm 0%nat (UniformOf 0%nat).
Definition g_unbound : Generator :=
  assemble JsUndefined JsUndefined seed_options seeded.
Definition g_bound : Generator :=
  assemble (JsNumber 2%float) (JsNumber 3%float) seed_options seeded.
Definition w_seeded : World := mkWorld [[0; 12345]] [Internal 0%nat true] 0%nat 0%nat.

(** [{ prng: f }] for the caller's function 0, and the generator built
    with it. *)
Definition prng_options : JsValue :=
  JsObject (<["prng" := JsFunction (UserFunction 0%nat)]> ∅).
Definition g_degraded : Generator :=
  assemble JsUndefined JsUndefined prng_options (mkRnorm 0%nat (UserFunction 0%nat)).
Definition w_degraded : World := mkWorld [] [External (UserFunction 0%nat)] 0%nat 0%nat.

(** A world where the caller holds a three-word and a four-word state, and
    two generators built on the first with [copy: false]. *)
Definition w_caller : World := mkWorld [[0; 7; 7]; [0; 9; 9; 9]] [] 0%nat 0%nat.
Definition shared_options : JsValue :=
  JsObject (<["state" := JsUint32Array 0%nat]> (<["copy" := JsBoolean false]> ∅)).
Definition g_first : Generator :=
  assemble JsUndefined JsUndefined shared_options (mkRnorm 0%nat (UniformOf 0%nat)).
Definition g_second : Generator :=
  assemble (JsNumber 2%float) (JsNumber 3%float) shared_options
           (mkRnorm 1%nat (UniformOf 1%nat)).
Definition w_first : World :=
  mkWorld [[0; 7; 7]; [0; 9; 9; 9]] [Internal 0%nat false] 0%nat 0%nat.
Definition w_shared : World :=
  mkWorld [[0; 7; 7]; [0; 9; 9; 9]]
          [Internal 0%nat false; Internal 0%nat false] 0%nat 0%nat.

(** A generator that owns a copy of the caller's three-word state. *)
Definition g_owner : Generator :=
  assemble JsUndefined JsUndefined (state_options (JsUint32Array 0%nat))
           (mkRnorm 0%nat (UniformOf 0%nat)).
Definition w_owner : World :=
  mkWorld [[0; 7; 7]; [0; 9; 9; 9]; [0; 7; 7]] [Internal 2%nat true] 0%nat 0%nat.

(** Options with a [prng] and, beside it, values no generator would accept. *)
Definition crowded_options : gmap string JsValue :=
  <["prng" := JsFunction (UserFunction 0%nat)]>
  (<["copy" := JsString "yes"]>
  (<["state" := JsNull]>
  (<["seed" := JsUndefined]> ∅))).

End Toy.


(** * Theorems *)

(** ** Rounding never invents a NaN *)

Section Rounding.
Variables prec emax : Z.

Lemma shr_1_nonneg mrs : 0 <= shr_m mrs -> 0 <= shr_m (shr_1 mrs).
Proof.
  destruct mrs as [m r s]. simpl.
  destruct m as [|[p|p|]|p]; simpl; lia.
Qed.

Lemma iter_shr_1_nonneg n : forall mrs,
  0 <= shr_m mrs -> 0 <= shr_m (SpecFloat.iter_pos shr_1 n mrs).
Proof.
  induction n as [n IH|n IH|]; intros mrs H; simpl.
  - apply IH, IH. by apply shr_1_nonneg.
  - by apply IH, IH.
  - by apply shr_1_nonneg.
Qed.

Lemma shr_record_of_loc_m m l : shr_m (shr_record_of_loc m l) = m.
Proof. by destruct l as [|[]]. Qed.

Lemma shr_fexp_nonneg m e l :
  0 <= m -> 0 <= shr_m (shr_fexp prec emax m e l).1.
Proof.
  intros H. unfold shr_fexp, shr.
  destruct (fexp prec emax (Zdigits2 m + e) - e) as [|p|p]; simpl;
    rewrite ?shr_record_of_loc_m; try done.
  apply iter_shr_1_nonneg. by rewrite shr_record_of_loc_m.
Qed.

Lemma round_nearest_even_nonneg m l :
  0 <= m -> 0 <= round_nearest_even m l.
Proof.
  intros H. destruct l as [|[]]; simpl; try done.
  - destruct (Z.even m); lia.
  - lia.
Qed.

Lemma binary_round_aux_not_nan sx mx ex lx :
  0 <= mx -> binary_round_aux prec emax sx mx ex lx <> S754_nan.
Proof.
  intros H. unfold binary_round_aux.
  pose proof (shr_fexp_nonneg mx ex lx H) as H1.
  destruct (shr_fexp prec emax mx ex lx) as [mrs' e']. simpl in H1.
  pose proof (shr_fexp_nonneg _ e' loc_Exact
                (round_nearest_even_nonneg _ (loc_of_shr_record mrs') H1)) as H2.
  destruct (shr_fexp prec emax _ e' loc_Exact) as [mrs'' e'']. simpl in H2.
  destruct (shr_m mrs'') as [|m|m]; [done| |lia].
  by destruct (e'' <=? emax - prec)%Z.
Qed.

Lemma binary_normalize_not_nan m e szero :
  binary_normalize prec emax m e szero <> S754_nan.
Proof.
  unfold binary_normalize, binary_round.
  destruct m as [|m|m]; [done| |];
    destruct (shl_align _ _ _) as [mz ez]; by apply binary_round_aux_not_nan.
Qed.

Lemma SFmul_nan x y :
  sf_is_nan (SFmul prec emax x y) =
    sf_is_nan x || sf_is_nan y
    || (sf_is_infinity x && sf_is_zero y) || (sf_is_zero x && sf_is_infinity y).
Proof.
  destruct x as [sx|sx| |sx mx ex], y as [sy|sy| |sy my ey]; try done.
  simpl.
  pose proof (binary_round_aux_not_nan (xorb sx sy) (Z.pos (mx * my))
                (ex + ey) loc_Exact ltac:(lia)) as H.
  by destruct (binary_round_aux _ _ _ _ _ _).
Qed.

Lemma SFadd_nan x y :
  sf_is_nan (SFadd prec emax x y) =
    sf_is_nan x || sf_is_nan y
    || match x, y with
       | S754_infinity sx, S754_infinity sy => xorb sx sy
       | _, _ => false
       end.
Proof.
  destruct x as [sx|sx| |sx mx ex], y as [sy|sy| |sy my ey]; try done;
    try by destruct sx, sy.
  simpl.
  match goal with |- sf_is_nan (binary_normalize _ _ ?m ?e ?s) = _ =>
    pose proof (binary_normalize_not_nan m e s) as H;
    by destruct (binary_normalize _ _ m e s) end.
Qed.

Lemma SFdiv_nan x y :
  sf_is_nan (SFdiv prec emax x y) =
    sf_is_nan x || sf_is_nan y
    || (sf_is_infinity x && sf_is_infinity y) || (sf_is_zero x && sf_is_zero y).
Proof.
  destruct x as [sx|sx| |sx mx ex], y as [sy|sy| |sy my ey]; try done.
  simpl. unfold SFdiv_core_binary.
  match goal with |- context [Z.div_eucl ?a ?b] =>
    assert (Ha : 0 <= a)
      by (destruct (_ - _); [done|apply Z.shiftl_nonneg; lia|done]);
    pose proof (Z.div_pos a b Ha ltac:(done)) as Hq;
    unfold Z.div in Hq;
    destruct (Z.div_eucl a b) as [q r]
  end.
  simpl in Hq.
  match goal with |- sf_is_nan ?t = _ =>
    assert (t <> S754_nan) by by apply binary_round_aux_not_nan end.
  by destruct (binary_round_aux _ _ _ _ _ _).
Qed.

End Rounding.

(** ** When the primitive operations give NaN *)

Lemma is_nan_spec x : PrimFloat.is_nan x = sf_is_nan (Prim2SF x).
Proof.
  unfold PrimFloat.is_nan. rewrite FloatAxioms.eqb_spec.
  destruct (Prim2SF x) as [s|s| |s m e]; unfold SFeqb, SFcompare; try done.
  - by destruct s.
  - rewrite Z.compare_refl, Pos.compare_cont_refl. by destruct s.
Qed.

Lemma is_zero_spec x : PrimFloat.is_zero x = sf_is_zero (Prim2SF x).
Proof.
  unfold PrimFloat.is_zero. rewrite FloatAxioms.eqb_spec.
  change (Prim2SF PrimFloat.zero) with (S754_zero false).
  by destruct (Prim2SF x) as [s|[]| |[] m e].
Qed.

Lemma is_infinity_spec x :
  PrimFloat.is_infinity x = sf_is_infinity (Prim2SF x).
Proof.
  unfold PrimFloat.is_infinity. rewrite FloatAxioms.eqb_spec, abs_spec.
  change (Prim2SF PrimFloat.infinity) with (S754_infinity false).
  by destruct (Prim2SF x) as [s|[]| |[] m e].
Qed.

Lemma mul_is_nan x y :
  PrimFloat.is_nan (PrimFloat.mul x y) =
    PrimFloat.is_nan x || PrimFloat.is_nan y
    || (PrimFloat.is_infinity x && PrimFloat.is_zero y)
    || (PrimFloat.is_zero x && PrimFloat.is_infinity y).
Proof.
  rewrite !is_nan_spec, !is_zero_spec, !is_infinity_spec, mul_spec.
  apply SFmul_nan.
Qed.

Lemma div_is_nan x y :
  PrimFloat.is_nan (PrimFloat.div x y) =
    PrimFloat.is_nan x || PrimFloat.is_nan y
    || (PrimFloat.is_infinity x && PrimFloat.is_infinity y)
    || (PrimFloat.is_zero x && PrimFloat.is_zero y).
Proof.
  rewrite !is_nan_spec, !is_zero_spec, !is_infinity_spec, div_spec.
  apply SFdiv_nan.
Qed.

Lemma add_finite_is_nan x y :
  PrimFloat.is_finite x = true ->
  PrimFloat.is_nan (PrimFloat.add x y) = PrimFloat.is_nan y.
Proof.
  unfold PrimFloat.is_finite.
  rewrite !is_nan_spec, is_infinity_spec, add_spec.
  unfold SF64add. rewrite SFadd_nan.
  by destruct (Prim2SF x) as [sx|sx| |sx mx ex],
              (Prim2SF y) as [sy|sy| |sy my ey].
Qed.

Lemma positive_not_zero gamma :
  PrimFloat.ltb PrimFloat.zero gamma = true ->
  PrimFloat.is_nan gamma = false /\ PrimFloat.is_zero gamma = false.
Proof.
  rewrite FloatAxioms.ltb_spec, is_nan_spec, is_zero_spec.
  change (Prim2SF PrimFloat.zero) with (S754_zero false).
  by destruct (Prim2SF gamma) as [[]|[]| |[] m e].
Qed.

Lemma cauchy_is_nan x0 gamma r :
  PrimFloat.is_finite x0 = true ->
  PrimFloat.ltb PrimFloat.zero gamma = true ->
  PrimFloat.is_nan (PrimFloat.add x0 (PrimFloat.mul gamma r)) =
    PrimFloat.is_nan r || (PrimFloat.is_infinity gamma && PrimFloat.is_zero r).
Proof.
  intros Hx [Hn Hz]%positive_not_zero.
  rewrite add_finite_is_nan, mul_is_nan, Hn, Hz by done.
  simpl. by rewrite orb_false_r.
Qed.

Section Theorems.
Context {C : Collaborator} {L : CollaboratorLaws C}.

(** ** The monad and the heap *)

Lemma bind_Return {A B} (m : M A) (k : A -> M B) w a w' :
  m w = Return a w' -> bind m k w = k a w'.
Proof. unfold bind. by intros ->. Qed.

Lemma with_heap_same (w : World) : with_heap (heap w) w = w.
Proof. by destruct w. Qed.

Lemma lookup_snoc {A} (h : list A) (c : A) : (h ++ [c]) !! length h = Some c.
Proof. by rewrite list_lookup_middle. Qed.

(** ** What [factory] returns *)

Lemma factory_eq (arguments : list JsValue) (w : World) :
  factory arguments w =
    match validation arguments with
    | Some err => Throw err w
    | None =>
      match source_for arguments w with
      | Return rnorm w' =>
        Return (assemble (closure_x0 arguments) (closure_gamma arguments)
                         (closure_opts arguments) rnorm) w'
      | Throw e w' => Throw e w'
      end
    end.
Proof.
  destruct arguments as [|x0 [|gamma [|opts rest]]];
    unfold factory, validation, source_for, bind; simpl;
    repeat case_match; try congruence; reflexivity.
Qed.

#[local] Arguments randn : simpl never.
#[local] Arguments source_from_options : simpl never.

Lemma randn_created o w rnorm w1 :
  randn o w = Return rnorm w1 ->
  created (match o with Some opts => hasOwnProp opts "prng" | None => false end)
          w rnorm w1.
Proof.
  unfold randn, default_seeded, new_internal, new_external, new_source,
    alloc, read_array, bind, ret, throw, created.
  intros H. repeat case_match; simplify_eq; simpl in *.
  all: split; [done|]; try done.
  all: split; [done|]; do 3 eexists; split; [done|].
  all: split; [first [apply lookup_snoc | eassumption]|].
  all: eauto using seed_valid, default_valid.
Qed.

Lemma source_for_created arguments w rnorm w1 :
  source_for arguments w = Return rnorm w1 ->
  created (external_prng arguments) w rnorm w1 /\
  truthy (closure_opts arguments) &&
    truthy (get_prop (closure_opts arguments) "prng") = external_prng arguments.
Proof.
  unfold source_for, external_prng, closure_opts.
  destruct (options_of arguments) as [opts|]; simpl.
  - unfold source_from_options.
    destruct opts; simpl; try done.
    case_bool_decide as Hp; simpl.
    + destruct Hp as [v Hv]. rewrite Hv. simpl.
      destruct v; simpl; try done.
      intros H%randn_created. split; [|done].
      simpl in H. by rewrite lookup_insert_eq in H.
    + apply eq_None_not_Some in Hp. rewrite Hp. simpl.
      intros H%randn_created. split; [|done].
      simpl in H. by rewrite Hp in H.
  - intros H%randn_created. done.
Qed.

Lemma factory_inv arguments w g w1 :
  factory arguments w = Return g w1 ->
  validation arguments = None /\
  exists rnorm,
    source_for arguments w = Return rnorm w1 /\
    g = assemble (closure_x0 arguments) (closure_gamma arguments)
                 (closure_opts arguments) rnorm.
Proof.
  rewrite factory_eq.
  destruct (validation arguments); [done|].
  destruct (source_for arguments w) as [rnorm w'|]; [|done].
  intros [= <- <-]. eauto.
Qed.

(** ** Invocation on an internally owned buffer *)

Lemma invoke_assemble x0 gamma opts rnorm :
  invoke (assemble x0 gamma opts rnorm) =
    if is_undefined x0
    then cauchy2 (mkEnv x0 gamma opts rnorm (PRNG rnorm))
    else cauchy1 (mkEnv x0 gamma opts rnorm (PRNG rnorm)).
Proof. unfold assemble. by destruct (truthy opts && _). Qed.

Lemma g_PRNG_assemble x0 gamma opts rnorm :
  g_PRNG (assemble x0 gamma opts rnorm) = PRNG rnorm.
Proof. unfold assemble. by destruct (truthy opts && _). Qed.

Lemma rnorm_call_internal rnorm w l copy c :
  gens w !! rn_gen rnorm = Some (Internal l copy) ->
  heap w !! l = Some c ->
  rnorm_call rnorm w =
    Return (normal_step c).1
           (with_heap (<[l := (normal_step c).2]> (heap w)) w).
Proof.
  intros Hg Hl. unfold rnorm_call. rewrite Hg, Hl. simpl.
  by destruct (normal_step c).
Qed.

Lemma cauchy0_internal rnorm x0 gamma w l copy c :
  gens w !! rn_gen rnorm = Some (Internal l copy) ->
  heap w !! l = Some c ->
  cauchy0 rnorm x0 gamma w =
    Return (transform x0 gamma c).1
           (with_heap (<[l := (transform x0 gamma c).2]> (heap w)) w).
Proof.
  intros Hg Hl. unfold cauchy0, transform.
  erewrite bind_Return; [|by eapply rnorm_call_internal].
  destruct (normal_step c) as [n1 c1] eqn:E1. simpl.
  erewrite bind_Return; cycle 1.
  { eapply rnorm_call_internal; simpl; [done|].
    apply list_lookup_insert_eq. by eapply lookup_lt_Some. }
  destruct (normal_step c1) as [n2 c2] eqn:E2. simpl.
  unfold ret, with_heap. simpl. by rewrite list_insert_insert_eq.
Qed.

Lemma invoke_internal x0 gamma opts rnorm a w l copy c :
  gens w !! rn_gen rnorm = Some (Internal l copy) ->
  heap w !! l = Some c ->
  invoke (assemble x0 gamma opts rnorm) a w =
    Return (pure_invoke x0 gamma a c).1
           (with_heap (<[l := (pure_invoke x0 gamma a c).2]> (heap w)) w).
Proof.
  intros Hg Hl. rewrite invoke_assemble. unfold pure_invoke.
  destruct (is_undefined x0).
  - unfold cauchy2. simpl.
    destruct (arg_isnan (a !! 0%nat) || arg_isnan (a !! 1%nat)
              || arg_leb_zero (a !! 1%nat)).
    + simpl. unfold ret. by rewrite list_insert_id, with_heap_same.
    + by eapply cauchy0_internal.
  - unfold cauchy1. simpl. by eapply cauchy0_internal.
Qed.

Lemma draws_internal x0 gamma opts rnorm calls : forall w l copy c,
  gens w !! rn_gen rnorm = Some (Internal l copy) ->
  heap w !! l = Some c ->
  draws (assemble x0 gamma opts rnorm) calls w =
    Return (pure_draws x0 gamma calls c).1
           (with_heap (<[l := (pure_draws x0 gamma calls c).2]> (heap w)) w).
Proof.
  induction calls as [|a rest IH]; intros w l copy c Hg Hl; simpl.
  - unfold ret. by rewrite list_insert_id, with_heap_same.
  - erewrite bind_Return; [|by eapply invoke_internal].
    destruct (pure_invoke x0 gamma a c) as [v c1]. simpl.
    erewrite bind_Return; cycle 1.
    { eapply IH; simpl; [done|].
      apply list_lookup_insert_eq. by eapply lookup_lt_Some. }
    destruct (pure_draws x0 gamma rest c1) as [vs c2]. simpl.
    unfold ret, with_heap. simpl. by rewrite list_insert_insert_eq.
Qed.

(** ** Invocation on any live source *)

Lemma rnorm_call_total rnorm w :
  (rn_gen rnorm < length (gens w))%nat ->
  exists n w', rnorm_call rnorm w = Return n w' /\ gens w' = gens w.
Proof.
  intros [src Hsrc]%lookup_lt_is_Some_2. unfold rnorm_call. rewrite Hsrc.
  destruct src as [l copy|f].
  - destruct (normal_step _) as [x c]. by eexists _, _.
  - destruct (ext_normal _ _) as [x e]. by eexists _, _.
Qed.

Lemma cauchy0_two_draws rnorm x0 gamma w :
  (rn_gen rnorm < length (gens w))%nat ->
  exists n1 w' n2 w'',
    rnorm_call rnorm w = Return n1 w' /\
    rnorm_call rnorm w' = Return n2 w'' /\
    gens w'' = gens w /\
    cauchy0 rnorm x0 gamma w =
      Return (PrimFloat.add x0 (PrimFloat.mul gamma (PrimFloat.div n1 n2))) w''.
Proof.
  intros Hlive.
  destruct (rnorm_call_total rnorm w Hlive) as (n1 & w' & H1 & Hg1).
  destruct (rnorm_call_total rnorm w') as (n2 & w'' & H2 & Hg2);
    [by rewrite Hg1|].
  exists n1, w', n2, w''. repeat split; [done|done|congruence|].
  unfold cauchy0. erewrite bind_Return; [|done]. by erewrite bind_Return.
Qed.

Lemma validation_bound arguments :
  validation arguments = None -> bound_params arguments <> [] ->
  exists x0 gamma rest,
    arguments = JsNumber x0 :: JsNumber gamma :: rest /\
    isnan x0 = false /\ PrimFloat.ltb PrimFloat.zero gamma = true.
Proof.
  destruct arguments as [|x0 [|gamma rest]]; simpl; try done.
  unfold validate. intros Hv _.
  destruct x0 as [| | |x| | | | | |]; simpl in Hv; try done.
  destruct (PrimFloat.is_nan x) eqn:Hx; [done|].
  destruct gamma as [| | |y| | | | | |]; simpl in Hv; try done.
  destruct (PrimFloat.ltb _ y) eqn:Hy; [|done].
  by eexists _, _, _.
Qed.

Lemma call_params_cases arguments a x0 gamma :
  call_params arguments a = Some (x0, gamma) ->
  (closure_x0 arguments = JsUndefined /\
   exists tl, a = x0 :: gamma :: tl /\ invalid_params x0 gamma = false) \/
  (closure_x0 arguments = JsNumber x0 /\
   closure_gamma arguments = JsNumber gamma).
Proof.
  assert (Hu : forall r : option (float * float),
    match a with
    | p :: q :: _ => if invalid_params p q then None else Some (p, q)
    | _ => None
    end = r -> r = Some (x0, gamma) ->
    exists tl, a = x0 :: gamma :: tl /\ invalid_params x0 gamma = false).
  { intros r <-. destruct a as [|p [|q tl]]; try done.
    destruct (invalid_params p q) eqn:E; [done|].
    intros [= <- <-]. eauto. }
  destruct arguments as [|v1 [|v2 rest]]; simpl.
  - intros H. left. split; [done|]. by eapply Hu.
  - destruct v1; intros H; left; (split; [done|]); by eapply Hu.
  - destruct v1; try done. destruct v2; try done.
    intros [= <- <-]. by right.
Qed.

Lemma created_live external w rnorm w1 :
  created external w rnorm w1 -> (rn_gen rnorm < length (gens w1))%nat.
Proof.
  intros [-> Hnew]. destruct external.
  - rewrite Hnew, length_app. simpl. lia.
  - destruct Hnew as (_ & l & copy & c & -> & _).
    rewrite length_app. simpl. lia.
Qed.

Lemma assemble_invoke_two_draws arguments rnorm a x0 gamma w :
  call_params arguments a = Some (x0, gamma) ->
  (rn_gen rnorm < length (gens w))%nat ->
  exists n1 w' n2 w'',
    rnorm_call rnorm w = Return n1 w' /\
    rnorm_call rnorm w' = Return n2 w'' /\
    invoke (assemble (closure_x0 arguments) (closure_gamma arguments)
                     (closure_opts arguments) rnorm) a w =
      Return (PrimFloat.add x0 (PrimFloat.mul gamma (PrimFloat.div n1 n2))) w''.
Proof.
  intros Hp Hlive. rewrite invoke_assemble.
  destruct (cauchy0_two_draws rnorm x0 gamma w Hlive)
    as (n1 & w' & n2 & w'' & H1 & H2 & _ & H0).
  exists n1, w', n2, w''. split; [done|]. split; [done|].
  destruct (call_params_cases _ _ _ _ Hp)
    as [(-> & tl & -> & Hok)|(-> & ->)]; simpl; [|done].
  unfold cauchy2, invalid_params in *. simpl. by rewrite Hok.
Qed.

(** ** The two parameter checks *)

Lemma positive_passes_guard gamma :
  PrimFloat.ltb PrimFloat.zero gamma = true ->
  isnan gamma = false /\ PrimFloat.leb gamma PrimFloat.zero = false.
Proof.
  unfold isnan. rewrite FloatAxioms.ltb_spec, FloatAxioms.leb_spec, is_nan_spec.
  change (Prim2SF PrimFloat.zero) with (S754_zero false).
  by destruct (Prim2SF gamma) as [[]|[]| |[] m e].
Qed.

Lemma finite_not_nan x : PrimFloat.is_finite x = true -> isnan x = false.
Proof.
  unfold PrimFloat.is_finite, isnan. by destruct (PrimFloat.is_nan x).
Qed.

Lemma valid_passes_guard x0 gamma :
  isnan x0 = false -> PrimFloat.ltb PrimFloat.zero gamma = true ->
  invalid_params x0 gamma = false.
Proof.
  intros Hx [Hg Hl]%positive_passes_guard. unfold invalid_params.
  by rewrite Hx, Hg, Hl.
Qed.

(** ** The unbound form and its guard *)

Lemma unbound_closure arguments :
  bound_params arguments = [] -> closure_x0 arguments = JsUndefined.
Proof. by destruct arguments as [|v1 [|v2 rest]]. Qed.

Lemma cauchy2_invalid env x0 gamma tl w :
  invalid_params x0 gamma = true ->
  cauchy2 env (x0 :: gamma :: tl) w = Return PrimFloat.nan w.
Proof. unfold cauchy2, invalid_params. simpl. by intros ->. Qed.

Lemma draws_app g xs : forall ys w,
  draws g (xs ++ ys) w =
    match draws g xs w with
    | Return v1 w1 =>
      match draws g ys w1 with
      | Return v2 w2 => Return (v1 ++ v2) w2
      | Throw e w2 => Throw e w2
      end
    | Throw e w1 => Throw e w1
    end.
Proof.
  induction xs as [|a xs IH]; intros ys w; simpl.
  - unfold ret. by destruct (draws g ys w).
  - unfold bind. destruct (invoke g a w) as [v w1|]; [|done].
    rewrite IH. destruct (draws g xs w1) as [v1 w2|]; [|done].
    unfold ret. by destruct (draws g ys w2).
Qed.

Lemma draws_length g xs : forall w vs w',
  draws g xs w = Return vs w' -> length vs = length xs.
Proof.
  induction xs as [|a xs IH]; intros w vs w'; simpl.
  - by intros [= <- _].
  - unfold bind. destruct (invoke g a w) as [v w1|]; [|done].
    destruct (draws g xs w1) as [v1 w2|] eqn:E; [|done].
    intros [= <- _]. simpl. f_equal. by eapply IH.
Qed.

Lemma unbound_invalid_call arguments rnorm x0 gamma tl w :
  bound_params arguments = [] ->
  invalid_params x0 gamma = true ->
  invoke (assemble (closure_x0 arguments) (closure_gamma arguments)
                   (closure_opts arguments) rnorm) (x0 :: gamma :: tl) w
  = Return PrimFloat.nan w.
Proof.
  intros Hu%unbound_closure Hbad. rewrite invoke_assemble, Hu. simpl.
  by apply cauchy2_invalid.
Qed.

Lemma call_params_unbound arguments x0 gamma tl :
  bound_params arguments = [] ->
  invalid_params x0 gamma = false ->
  call_params arguments (x0 :: gamma :: tl) = Some (x0, gamma).
Proof.
  destruct arguments as [|v1 [|v2 rest]]; try done; [|destruct v1];
    simpl; by intros _ ->.
Qed.

Lemma validated_call_params arguments x0 gamma tl :
  bound_params arguments = [] ->
  validate (JsNumber x0) (JsNumber gamma) = None ->
  call_params arguments (x0 :: gamma :: tl) = Some (x0, gamma).
Proof.
  intros Hu Hv. apply call_params_unbound; [done|].
  unfold validate in Hv. simpl in Hv.
  destruct (PrimFloat.is_nan x0) eqn:Hx; [done|].
  destruct (PrimFloat.ltb PrimFloat.zero gamma) eqn:Hg; [|done].
  by apply valid_passes_guard.
Qed.

(** C2: a generator built by [factory] has one underlying normal source,
    created by that call.  Every invocation with valid parameters (the bound
    ones, or the ones passed to the unbound form when they pass its guard)
    calls that source twice, for [n1] and then [n2], and returns
    [x0 + gamma * (n1 / n2)], leaving the world as the second call left it.
    A bound generator always has such parameters, and so has an unbound one
    called with parameters the validator accepts. *)
Theorem invoke_draws_twice arguments w0 g w1 :
  factory arguments w0 = Return g w1 ->
  exists rnorm,
    rn_gen rnorm = length (gens w0) /\
    (rn_gen rnorm < length (gens w1))%nat /\
    PRNG rnorm = g_PRNG g /\
    (bound_params arguments <> [] ->
     exists x0 gamma, forall a, call_params arguments a = Some (x0, gamma)) /\
    (bound_params arguments = [] ->
     forall x0 gamma tl,
       validate (JsNumber x0) (JsNumber gamma) = None ->
       call_params arguments (x0 :: gamma :: tl) = Some (x0, gamma)) /\
    forall a x0 gamma w,
      call_params arguments a = Some (x0, gamma) ->
      (rn_gen rnorm < length (gens w))%nat ->
      exists n1 w' n2 w'',
        rnorm_call rnorm w = Return n1 w' /\
        rnorm_call rnorm w' = Return n2 w'' /\
        invoke g a w =
          Return (PrimFloat.add x0 (PrimFloat.mul gamma (PrimFloat.div n1 n2))) w''.
Proof.
  intros (Hval & rnorm & Hsrc & ->)%factory_inv.
  apply source_for_created in Hsrc as [Hnew _].
  exists rnorm. split; [apply Hnew|].
  split; [by eapply created_live|].
  split; [by rewrite g_PRNG_assemble|]. split; [|split].
  - intros Hb.
    destruct (validation_bound _ Hval Hb) as (x0 & gamma & rest & -> & _).
    by exists x0, gamma.
  - intros Hu x0 gamma tl. by apply validated_call_params.
  - intros a x0 gamma w. apply assemble_invoke_two_draws.
Qed.

(** C10: an unbound generator called with [x0] NaN, [gamma] NaN or
    [gamma <= 0] returns NaN and leaves the world as it found it, drawing
    nothing.  So a run of invocations with such a call in it produces, at the
    other positions, the values the run without that call produces, and
    ends in the same world. *)
Theorem invalid_call_draws_nothing arguments w0 g w1 x0 gamma :
  factory arguments w0 = Return g w1 ->
  bound_params arguments = [] ->
  invalid_params x0 gamma = true ->
  (forall tl w, invoke g (x0 :: gamma :: tl) w = Return PrimFloat.nan w) /\
  (forall before after w,
     draws g (before ++ [x0; gamma] :: after) w =
       match draws g (before ++ after) w with
       | Return vs w' =>
         Return (take (length before) vs ++ PrimFloat.nan
                   :: drop (length before) vs) w'
       | Throw e w' => Throw e w'
       end).
Proof.
  intros (_ & rnorm & _ & ->)%factory_inv Hu Hbad.
  split; [intros; by apply unbound_invalid_call|].
  intros before after w. rewrite !draws_app.
  destruct (draws _ before w) as [v1 w2|] eqn:E1; [|done].
  apply draws_length in E1. simpl.
  unfold bind at 1. rewrite unbound_invalid_call by done.
  unfold bind, ret. destruct (draws _ after w2) as [v2 w3|]; [|done].
  rewrite take_app_length', drop_app_length'; done.
Qed.

(** C3 (as the code has it): an unbound generator called with [x0] NaN,
    [gamma] NaN or [gamma <= 0] returns NaN without throwing.  Called with a
    finite [x0] and [gamma > 0], in a world where its source exists, it does
    not throw either: it calls the normal source the factory created twice,
    for [n1] and then [n2], leaves the world as the second call left it, and
    returns the number [x0 + gamma * (n1 / n2)] for these two draws.  That
    number is finite or infinite, except that it is NaN exactly when the
    ratio [n1 / n2] is NaN, or [gamma] is infinite and the ratio is zero; and
    the ratio is NaN exactly when a draw is NaN, both draws are infinite, or
    both are zero. *)
Theorem unbound_call_never_throws arguments w0 g w1 :
  factory arguments w0 = Return g w1 ->
  bound_params arguments = [] ->
  (forall x0 gamma tl w,
     invalid_params x0 gamma = true ->
     invoke g (x0 :: gamma :: tl) w = Return PrimFloat.nan w) /\
  exists rnorm,
    rn_gen rnorm = length (gens w0) /\
    PRNG rnorm = g_PRNG g /\
    forall x0 gamma tl w,
      PrimFloat.is_finite x0 = true ->
      PrimFloat.ltb PrimFloat.zero gamma = true ->
      (length (gens w0) < length (gens w))%nat ->
      exists n1 w' n2 w'' v,
        rnorm_call rnorm w = Return n1 w' /\
        rnorm_call rnorm w' = Return n2 w'' /\
        invoke g (x0 :: gamma :: tl) w = Return v w'' /\
        v = PrimFloat.add x0 (PrimFloat.mul gamma (PrimFloat.div n1 n2)) /\
        PrimFloat.is_nan v =
          PrimFloat.is_nan (PrimFloat.div n1 n2)
          || (PrimFloat.is_infinity gamma && PrimFloat.is_zero (PrimFloat.div n1 n2)) /\
        PrimFloat.is_nan (PrimFloat.div n1 n2) =
          PrimFloat.is_nan n1 || PrimFloat.is_nan n2
          || (PrimFloat.is_infinity n1 && PrimFloat.is_infinity n2)
          || (PrimFloat.is_zero n1 && PrimFloat.is_zero n2).
Proof.
  intros (_ & rnorm & Hsrc & ->)%factory_inv Hu.
  apply source_for_created in Hsrc as [[Hid _] _].
  split; [intros; by apply unbound_invalid_call|].
  exists rnorm. split; [done|]. split; [by rewrite g_PRNG_assemble|].
  intros x0 gamma tl w Hx Hg Hlive.
  destruct (assemble_invoke_two_draws arguments rnorm (x0 :: gamma :: tl)
              x0 gamma w) as (n1 & w' & n2 & w'' & H1 & H2 & Hinv).
  - apply call_params_unbound; [done|].
    apply valid_passes_guard; [by apply finite_not_nan|done].
  - by rewrite Hid.
  - exists n1, w', n2, w''. eexists. split; [exact H1|]. split; [exact H2|].
    split; [exact Hinv|]. split; [done|].
    split; [by apply cauchy_is_nan|apply div_is_nan].
Qed.

(** ** The state accessors *)

Lemma assemble_degraded x0 gamma opts rnorm :
  truthy opts && truthy (get_prop opts "prng") = true ->
  let g := assemble x0 gamma opts rnorm in
  seed g = ret JsNull /\ seedLength g = ret JsNull /\
  state g = ret JsNull /\ stateLength g = ret JsNull /\
  byteLength g = ret JsNull /\
  set_state g = noop /\ toJSON g = ret JsNull.
Proof. unfold assemble. by intros ->. Qed.

Lemma assemble_owned x0 gamma opts rnorm :
  truthy opts && truthy (get_prop opts "prng") = false ->
  let g := assemble x0 gamma opts rnorm in
  let env := mkEnv x0 gamma opts rnorm (PRNG rnorm) in
  seed g = rand_get_seed (PRNG rnorm) /\
  seedLength g = rand_get_seedLength (PRNG rnorm) /\
  state g = rand_get_state (PRNG rnorm) /\
  stateLength g = rand_get_stateLength (PRNG rnorm) /\
  byteLength g = rand_get_byteLength (PRNG rnorm) /\
  set_state g = rand_set_state (PRNG rnorm) /\
  toJSON g = toJSON_ env.
Proof. unfold assemble. by intros ->. Qed.

Lemma source_of_internal gen w l copy :
  gens w !! gen = Some (Internal l copy) ->
  source_of (UniformOf gen) w = Return (Some (gen, l, copy)) w.
Proof. unfold source_of. by intros ->. Qed.

Lemma rand_get_state_internal gen w l copy c :
  gens w !! gen = Some (Internal l copy) ->
  heap w !! l = Some c ->
  rand_get_state (UniformOf gen) w =
    Return (JsUint32Array (length (heap w))) (with_heap (heap w ++ [c]) w).
Proof.
  intros Hg Hl. unfold rand_get_state.
  erewrite bind_Return; [|by apply source_of_internal].
  unfold bind, read, alloc, ret. by rewrite Hl.
Qed.

Lemma toJSON_internal x0 gamma opts rnorm gen w l copy c :
  PRNG rnorm = UniformOf gen ->
  gens w !! gen = Some (Internal l copy) ->
  heap w !! l = Some c ->
  toJSON_ (mkEnv x0 gamma opts rnorm (PRNG rnorm)) w =
    Return (JsObject
              (<["params" := JsArray (if is_undefined x0 then [] else [x0; gamma])]>
              (<["state" := array_json c]>
              (<["name" := JsString "cauchy"]>
              (<["type" := JsString "PRNG"]> ∅)))))
           (with_heap (heap w ++ [c]) w).
Proof.
  intros Hr Hg Hl. unfold toJSON_. simpl. rewrite Hr.
  erewrite bind_Return; [|by eapply rand_get_state_internal].
  unfold typedarray2json, bind, read, ret. simpl.
  rewrite lookup_snoc. simpl. by destruct (is_undefined x0).
Qed.

Lemma state_buffer_assemble x0 gamma opts rnorm gen w l c :
  PRNG rnorm = UniformOf gen ->
  state_buffer (assemble x0 gamma opts rnorm) w = Some (l, c) <->
  exists copy, gens w !! gen = Some (Internal l copy) /\ heap w !! l = Some c.
Proof.
  intros Hr. unfold state_buffer. rewrite g_PRNG_assemble, Hr.
  split.
  - destruct (gens w !! gen) as [[l' copy|f]|]; try done.
    destruct (heap w !! l') eqn:E; [|done]. intros [= <- <-]. eauto.
  - by intros (copy & -> & ->).
Qed.

Lemma created_internal w rnorm w1 :
  created false w rnorm w1 ->
  PRNG rnorm = UniformOf (length (gens w)) /\
  exists l copy c,
    gens w1 !! length (gens w) = Some (Internal l copy) /\
    heap w1 !! l = Some c /\ verify_state c = true.
Proof.
  intros [Hid (Hr & l & copy & c & Hg & Hl & Hv)].
  split; [by rewrite Hr, Hid|].
  exists l, copy, c. by rewrite Hg, lookup_snoc.
Qed.

(** C5: a generator built on a caller's [prng] reads [seed], [seedLength],
    [state], [stateLength] and [byteLength] as null, ignores an assignment
    to [state], and serializes to null, in every world.  A generator built
    without one has the built-in generator created by the same call under
    it; its five readers and its [state] writer are that generator's own,
    reading [state] gives a fresh copy of the words of its buffer, and its
    serialization is an object, not null. *)
Theorem state_accessors arguments w0 g w1 :
  factory arguments w0 = Return g w1 ->
  if external_prng arguments then
    (forall w, seed g w = Return JsNull w) /\
    (forall w, seedLength g w = Return JsNull w) /\
    (forall w, state g w = Return JsNull w) /\
    (forall w, stateLength g w = Return JsNull w) /\
    (forall w, byteLength g w = Return JsNull w) /\
    (forall s w, set_state g s w = Return tt w) /\
    (forall w, toJSON g w = Return JsNull w)
  else
    let rand := UniformOf (length (gens w0)) in
    g_PRNG g = rand /\
    seed g = rand_get_seed rand /\
    seedLength g = rand_get_seedLength rand /\
    state g = rand_get_state rand /\
    stateLength g = rand_get_stateLength rand /\
    byteLength g = rand_get_byteLength rand /\
    set_state g = rand_set_state rand /\
    (exists l c, state_buffer g w1 = Some (l, c)) /\
    (forall w l c, state_buffer g w = Some (l, c) ->
       state g w = Return (JsUint32Array (length (heap w)))
                          (with_heap (heap w ++ [c]) w)) /\
    (forall w l c, state_buffer g w = Some (l, c) ->
       exists m w', toJSON g w = Return (JsObject m) w').
Proof.
  intros (_ & rnorm & Hsrc & ->)%factory_inv.
  apply source_for_created in Hsrc as [Hnew Hdeg].
  destruct (external_prng arguments).
  - destruct (assemble_degraded (closure_x0 arguments) (closure_gamma arguments)
                _ rnorm Hdeg) as (-> & -> & -> & -> & -> & -> & ->).
    done.
  - destruct (assemble_owned (closure_x0 arguments) (closure_gamma arguments)
                _ rnorm Hdeg) as (-> & -> & -> & -> & -> & -> & ->).
    apply created_internal in Hnew as (Hr & l & copy & c & Hg & Hl & Hv).
    rewrite g_PRNG_assemble, Hr. repeat (split; [done|]).
    split; [|split].
    + exists l, c. apply (state_buffer_assemble _ _ _ _ _ _ _ _ Hr). eauto.
    + intros w l' c' (copy' & Hg' & Hl')%(state_buffer_assemble _ _ _ _ _ _ _ _ Hr).
      by eapply rand_get_state_internal.
    + intros w l' c' (copy' & Hg' & Hl')%(state_buffer_assemble _ _ _ _ _ _ _ _ Hr).
      rewrite <-Hr. erewrite toJSON_internal; eauto.
Qed.

(** ** Serialization *)

Lemma params_bound arguments :
  validation arguments = None ->
  (if is_undefined (closure_x0 arguments) then []
   else [closure_x0 arguments; closure_gamma arguments])
  = bound_params arguments.
Proof.
  destruct arguments as [|x0 [|gamma rest]]; simpl; try done.
  unfold validate. by destruct x0.
Qed.

(** C8: a generator built without a caller's [prng] has a state buffer, and
    wherever it has one its serialization is an object with exactly four
    fields: [type] is "PRNG", [name] is "cauchy", [state] is the JSON form
    of the words its buffer holds at the call, and [params] is the empty
    array for the unbound form and [[x0, gamma]] for the bound form.  The
    JSON form of the words is an object with exactly two fields: [type] is
    "Uint32Array" and [data] is the plain array of the words as numbers,
    one number for each word, in the buffer's order.  Serializing leaves
    the generator's state as it was. *)
Theorem toJSON_shape arguments w0 g w1 :
  factory arguments w0 = Return g w1 ->
  external_prng arguments = false ->
  (exists l c, state_buffer g w1 = Some (l, c)) /\
  forall w l c,
    state_buffer g w = Some (l, c) ->
    exists m w',
      toJSON g w = Return (JsObject m) w' /\
      m !! "type" = Some (JsString "PRNG") /\
      m !! "name" = Some (JsString "cauchy") /\
      (exists js,
         m !! "state" = Some (JsObject js) /\
         js !! "type" = Some (JsString "Uint32Array") /\
         js !! "data" =
           Some (JsArray
                   (map (fun z => JsNumber (PrimFloat.of_uint63 (Uint63.of_Z z))) c)) /\
         (forall key, key ∉ ["type"; "data"] -> js !! key = None)) /\
      m !! "params" = Some (JsArray (bound_params arguments)) /\
      (forall key, key ∉ ["type"; "name"; "state"; "params"] -> m !! key = None) /\
      state_buffer g w' = Some (l, c).
Proof.
  intros (Hval & rnorm & Hsrc & ->)%factory_inv Hext.
  apply source_for_created in Hsrc as [Hnew Hdeg]. rewrite Hext in Hnew, Hdeg.
  apply created_internal in Hnew as (Hr & l & copy & c & Hg & Hl & Hv).
  split.
  { exists l, c. apply (state_buffer_assemble _ _ _ _ _ _ _ _ Hr). eauto. }
  intros w l' c' Hbuf.
  pose proof Hbuf as (copy' & Hg' & Hl')%(state_buffer_assemble _ _ _ _ _ _ _ _ Hr).
  destruct (assemble_owned (closure_x0 arguments) (closure_gamma arguments)
              _ rnorm Hdeg) as (_ & _ & _ & _ & _ & _ & ->).
  erewrite toJSON_internal; [|done..]. rewrite params_bound by done.
  eexists _, _. split; [done|].
  split; [done|]. split; [done|]. split.
  { eexists. split; [done|]. split; [done|]. split; [done|].
    intros key Hkey. rewrite !lookup_insert_ne; [done|set_solver..]. }
  split; [done|]. split.
  - intros key Hkey.
    rewrite !lookup_insert_ne; [done|set_solver..].
  - apply (state_buffer_assemble _ _ _ _ _ _ _ _ Hr). exists copy'.
    split; [done|]. simpl. by apply lookup_app_l_Some.
Qed.

(** ** Options *)

Lemma source_from_options_not_object opts w :
  isObject opts = false ->
  source_from_options opts w = Throw (InvalidOptions opts) w.
Proof. unfold source_from_options. by intros ->. Qed.

Lemma source_from_options_bad_prng opts w :
  hasOwnProp opts "prng" = true ->
  isFunction (get_prop opts "prng") = false ->
  source_from_options opts w =
    Throw (InvalidOptions_prng (get_prop opts "prng")) w.
Proof.
  unfold source_from_options. intros Hp Hf.
  destruct opts; try done. simpl isObject. simpl negb. cbv iota.
  by rewrite Hp, Hf.
Qed.

Lemma recognized_false key :
  recognized key = false ->
  key <> "prng" /\ key <> "seed" /\ key <> "state" /\ key <> "copy".
Proof.
  unfold recognized. intros H%bool_decide_eq_false.
  repeat split; intros ->; apply H; set_solver.
Qed.

Lemma randn_ignores_key m key v :
  recognized key = false ->
  randn (Some (JsObject (<[key := v]> m))) = randn (Some (JsObject m)).
Proof.
  intros (Hp & Hs & Ht & Hc)%recognized_false.
  unfold randn, hasOwnProp, get_prop.
  by rewrite !lookup_insert_ne.
Qed.

Lemma source_from_options_ignores_key m key v :
  recognized key = false ->
  source_from_options (JsObject (<[key := v]> m))
  = source_from_options (JsObject m).
Proof.
  intros Hk. pose proof Hk as (Hp & Hs & Ht & Hc)%recognized_false.
  unfold source_from_options. rewrite (randn_ignores_key m key v) by done.
  unfold hasOwnProp, get_prop. by rewrite !lookup_insert_ne.
Qed.

Lemma assemble_ignores_key x0 gamma m key v rnorm :
  recognized key = false ->
  assemble x0 gamma (JsObject (<[key := v]> m)) rnorm
  = assemble x0 gamma (JsObject m) rnorm.
Proof.
  intros (Hp & Hs & Ht & Hc)%recognized_false.
  unfold assemble, get_prop. by rewrite !lookup_insert_ne.
Qed.

Lemma factory_invalid_params arguments err w :
  validation arguments = Some err -> factory arguments w = Throw err w.
Proof. intros H. by rewrite factory_eq, H. Qed.

(** C9: take a call of the factory with an options argument.  In the
    one-argument form nothing is validated before the options; in the
    three-argument form a parameter that fails validation stops the call
    with the validator's error.  Otherwise the factory throws the options
    error if the options argument is not a plain object, and the [prng]
    option error if the object has a [prng] property that is not a
    function.  Adding a key other than [prng], [seed], [state] and [copy] to
    an options object changes nothing: the factory ends the same way, with
    the same generator or the same error. *)
Theorem options_errors arguments opts w :
  options_of arguments = Some opts ->
  validation [opts] = None /\
  (forall err, validation arguments = Some err ->
     factory arguments w = Throw err w) /\
  (validation arguments = None -> isObject opts = false ->
   factory arguments w = Throw (InvalidOptions opts) w) /\
  (validation arguments = None -> isObject opts = true ->
   hasOwnProp opts "prng" = true ->
   isFunction (get_prop opts "prng") = false ->
   factory arguments w = Throw (InvalidOptions_prng (get_prop opts "prng")) w) /\
  (forall m key v,
     opts = JsObject m -> recognized key = false ->
     factory (replace_options arguments (JsObject (<[key := v]> m))) w
     = factory arguments w).
Proof.
  intros Ho. split; [done|]. split; [|split; [|split]].
  - intros err. apply factory_invalid_params.
  - intros Hv Hobj. rewrite factory_eq, Hv. unfold source_for. rewrite Ho.
    by rewrite source_from_options_not_object.
  - intros Hv _ Hp Hf. rewrite factory_eq, Hv. unfold source_for. rewrite Ho.
    by rewrite source_from_options_bad_prng.
  - intros m key v -> Hk.
    destruct arguments as [|x0 [|gamma [|o rest]]]; simplify_eq/=.
    + unfold bind. rewrite source_from_options_ignores_key by done.
      destruct (source_from_options _ w); [|done].
      by rewrite assemble_ignores_key.
    + destruct (validate x0 gamma); [done|]. unfold bind.
      rewrite source_from_options_ignores_key by done.
      destruct (source_from_options _ w); [|done].
      by rewrite assemble_ignores_key.
Qed.

(** ** Seeding *)

Lemma randn_seed v w :
  randn (Some (JsObject (<["seed" := v]> ∅))) w =
    match seed_state v with
    | Some c =>
      Return (mkRnorm (length (gens w)) (UniformOf (length (gens w))))
             (with_gens (gens w ++ [Internal (length (heap w)) true])
                        (with_heap (heap w ++ [c]) w))
    | None => Throw (TypeError msg_option_seed [JsString "seed"; v]) w
    end.
Proof.
  unfold randn, hasOwnProp, get_prop. simpl.
  rewrite !lookup_insert_ne, !lookup_empty, lookup_insert_eq by done.
  rewrite !bool_decide_eq_false_2 by (by intros [? ?]).
  rewrite bool_decide_eq_true_2 by done. simpl.
  unfold bind, ret. by destruct (seed_state v).
Qed.

Lemma source_from_options_no_prng (m : gmap string JsValue) :
  m !! "prng" = None ->
  source_from_options (JsObject m) = randn (Some (JsObject m)).
Proof.
  intros Hp. unfold source_from_options, hasOwnProp. simpl.
  rewrite bool_decide_eq_false_2; [done|]. rewrite Hp. by intros [? ?].
Qed.

Lemma first_output_seeded arguments a v w :
  validation arguments = None ->
  options_of arguments = Some (JsObject (<["seed" := v]> ∅)) ->
  result (first_output arguments a w) =
    match seed_state v with
    | Some c =>
      inr (pure_invoke (closure_x0 arguments) (closure_gamma arguments) a c).1
    | None => inl (TypeError msg_option_seed [JsString "seed"; v])
    end.
Proof.
  intros Hv Ho. unfold first_output, bind. rewrite factory_eq, Hv.
  unfold source_for. rewrite Ho.
  rewrite source_from_options_no_prng by done.
  rewrite randn_seed. destruct (seed_state v) as [c|]; [|done].
  erewrite invoke_internal; [done|..]; simpl.
  - apply lookup_snoc.
  - apply lookup_snoc.
Qed.

(** C7: for parameters that pass validation and any seed, a generator bound
    to [x0] and [gamma] and called with no arguments, and an unbound
    generator called with [x0] and [gamma], both built with only that seed
    as an option, give the same first result, in whatever worlds the two are
    built: the same number, or the same seed error. *)
Theorem seeded_first_output_binding_independent x0 gamma v wA wB :
  validate (JsNumber x0) (JsNumber gamma) = None ->
  let opts := JsObject (<["seed" := v]> ∅) in
  result (first_output [JsNumber x0; JsNumber gamma; opts] [] wA)
  = result (first_output [opts] [x0; gamma] wB).
Proof.
  intros Hv opts. rewrite !(first_output_seeded _ _ v) by done.
  destruct (seed_state v) as [c|]; [|done]. f_equal.
  unfold validate in Hv. simpl in Hv.
  destruct (PrimFloat.is_nan x0) eqn:Hx; [done|].
  destruct (PrimFloat.ltb PrimFloat.zero gamma) eqn:Hg; [|done].
  unfold pure_invoke. simpl.
  fold (isnan x0) in Hx.
  pose proof (valid_passes_guard x0 gamma Hx Hg) as Hok.
  unfold invalid_params in Hok. by rewrite Hok.
Qed.

(** ** Capturing and restoring state *)

Lemma transform_valid x0 gamma c :
  verify_state c = true -> verify_state (transform x0 gamma c).2 = true.
Proof.
  intros Hv. unfold transform.
  pose proof (step_valid c Hv) as H1.
  destruct (normal_step c) as [n1 c1]. simpl in H1.
  pose proof (step_valid c1 H1) as H2.
  by destruct (normal_step c1) as [n2 c2].
Qed.

Lemma pure_invoke_valid x0 gamma a c :
  verify_state c = true -> verify_state (pure_invoke x0 gamma a c).2 = true.
Proof.
  intros Hv. unfold pure_invoke.
  repeat case_match; simpl; auto using transform_valid.
Qed.

Lemma pure_draws_length x0 gamma calls : forall c,
  length (pure_draws x0 gamma calls c).1 = length calls.
Proof.
  induction calls as [|a rest IH]; intros c; simpl; [done|].
  destruct (pure_invoke x0 gamma a c) as [v c1].
  specialize (IH c1). destruct (pure_draws x0 gamma rest c1) as [vs c2].
  simpl in *. by rewrite IH.
Qed.

Lemma rand_set_state_restores gen w l copy cur ls c :
  gens w !! gen = Some (Internal l copy) ->
  heap w !! l = Some cur ->
  heap w !! ls = Some c ->
  verify_state c = true ->
  exists w' l',
    rand_set_state (UniformOf gen) (JsUint32Array ls) w = Return tt w' /\
    gens w' !! gen = Some (Internal l' copy) /\
    heap w' !! l' = Some c.
Proof.
  intros Hg Hl Hs Hv. unfold rand_set_state.
  erewrite bind_Return; [|by apply source_of_internal].
  unfold bind, read_array, read, write, alloc, rebind, ret. simpl.
  rewrite Hs. simpl. rewrite Hv. simpl. rewrite Hl. simpl.
  assert (Hgen : (gen < length (gens w))%nat) by by eapply lookup_lt_Some.
  assert (Hloc : (l < length (heap w))%nat) by by eapply lookup_lt_Some.
  destruct copy; case_bool_decide; eexists _, _; (split; [done|]); simpl.
  - split; [done|]. by apply list_lookup_insert_eq.
  - split; [by apply list_lookup_insert_eq|]. apply lookup_snoc.
  - split; [done|]. by apply list_lookup_insert_eq.
  - split; [by apply list_lookup_insert_eq|]. done.
Qed.

Lemma replay_internal x0 gamma opts rnorm gen calls w l copy c :
  truthy opts && truthy (get_prop opts "prng") = false ->
  PRNG rnorm = UniformOf gen -> rn_gen rnorm = gen ->
  gens w !! gen = Some (Internal l copy) ->
  heap w !! l = Some c ->
  verify_state c = true ->
  let out := (pure_draws x0 gamma calls c).1 in
  exists w' l' copy',
    replay (assemble x0 gamma opts rnorm) calls w = Return (out, out) w' /\
    gens w' !! gen = Some (Internal l' copy') /\
    heap w' !! l' = Some (pure_draws x0 gamma calls c).2.
Proof.
  intros Hdeg Hr Hid Hg Hl Hv out. unfold replay.
  destruct (assemble_owned x0 gamma opts rnorm Hdeg)
    as (_ & _ & -> & _ & _ & -> & _).
  rewrite Hr.
  assert (Hloc : (l < length (heap w))%nat) by by eapply lookup_lt_Some.
  erewrite bind_Return; [|by eapply rand_get_state_internal].
  erewrite bind_Return; cycle 1.
  { eapply draws_internal; simpl; [by rewrite Hid|by apply lookup_app_l_Some]. }
  destruct (rand_set_state_restores gen
    (with_heap (<[l:=(pure_draws x0 gamma calls c).2]> (heap w ++ [c]))
               (with_heap (heap w ++ [c]) w))
    l copy (pure_draws x0 gamma calls c).2 (length (heap w)) c)
    as (w' & l' & Hset & Hg' & Hl'); simpl; try done.
  { apply list_lookup_insert_eq. rewrite length_app. lia. }
  { rewrite list_lookup_insert_ne by lia. apply lookup_snoc. }
  erewrite bind_Return; [|done].
  erewrite bind_Return; cycle 1.
  { eapply draws_internal; [by rewrite Hid|done]. }
  eexists _, l', copy. split; [done|]. simpl. split; [done|].
  apply list_lookup_insert_eq. by eapply lookup_lt_Some.
Qed.

(** C1: a generator built without a caller's [prng] starts with a
    well-formed state; an invocation in such a world returns and leaves one;
    and in any such world, capturing [state], making any list of
    invocations, assigning the captured snapshot back and making the same
    invocations again does not throw and produces the same list of numbers
    twice, one per invocation. *)
Theorem replay_is_deterministic arguments w0 g w1 :
  factory arguments w0 = Return g w1 ->
  external_prng arguments = false ->
  valid_state g w1 /\
  (forall w a, valid_state g w ->
     exists v w', invoke g a w = Return v w' /\ valid_state g w') /\
  (forall w calls, valid_state g w ->
     exists out w',
       replay g calls w = Return (out, out) w' /\
       length out = length calls /\
       valid_state g w').
Proof.
  intros (Hval & rnorm & Hsrc & ->)%factory_inv Hext.
  apply source_for_created in Hsrc as [Hnew Hdeg]. rewrite Hext in Hnew, Hdeg.
  pose proof Hnew as [Hid _].
  apply created_internal in Hnew as (Hr & l & copy & c & Hg & Hl & Hv).
  unfold valid_state.
  split; [|split].
  - exists l, c. split; [|done].
    apply (state_buffer_assemble _ _ _ _ _ _ _ _ Hr). eauto.
  - intros w a (l' & c' & (copy' & Hg' & Hl')%(state_buffer_assemble _ _ _ _ _ _ _ _ Hr) & Hv').
    erewrite invoke_internal; [|by rewrite Hid|done].
    eexists _, _. split; [done|]. eexists l', _. split.
    + eapply state_buffer_assemble; [exact Hr|]. exists copy'.
      split; [done|]. simpl. apply list_lookup_insert_eq.
      by eapply lookup_lt_Some.
    + by apply pure_invoke_valid.
  - intros w calls (l' & c' & (copy' & Hg' & Hl')%(state_buffer_assemble _ _ _ _ _ _ _ _ Hr) & Hv').
    destruct (replay_internal (closure_x0 arguments) (closure_gamma arguments)
                (closure_opts arguments) rnorm _ calls w l' copy' c'
                Hdeg Hr Hid Hg' Hl' Hv')
      as (w' & l'' & copy'' & Hrep & Hg'' & Hl'').
    eexists _, w'. split; [done|]. split; [apply pure_draws_length|].
    eexists l'', _. split.
    + eapply state_buffer_assemble; [exact Hr|]. eauto.
    + clear -L Hv'. revert c' Hv'.
      induction calls as [|a rest IH]; intros c Hc; simpl; [done|].
      pose proof (pure_invoke_valid (closure_x0 arguments)
                    (closure_gamma arguments) a c Hc) as H1.
      destruct (pure_invoke _ _ a c) as [v c1]. simpl in H1.
      specialize (IH c1 H1). by destruct (pure_draws _ _ rest c1).
Qed.

(** ** Generators that share a buffer *)

Lemma built_on_PRNG g x0 gamma gen :
  built_on g x0 gamma gen -> g_PRNG g = UniformOf gen.
Proof. intros (opts & rnorm & -> & _ & Hr & _). by rewrite g_PRNG_assemble. Qed.

Lemma built_on_invoke g x0 gamma gen a w l copy c :
  built_on g x0 gamma gen ->
  gens w !! gen = Some (Internal l copy) ->
  heap w !! l = Some c ->
  invoke g a w =
    Return (pure_invoke x0 gamma a c).1
           (with_heap (<[l := (pure_invoke x0 gamma a c).2]> (heap w)) w).
Proof.
  intros (opts & rnorm & -> & _ & _ & Hid) Hg Hl.
  eapply invoke_internal; [by rewrite Hid|done].
Qed.

Lemma built_on_set_state g x0 gamma gen :
  built_on g x0 gamma gen -> set_state g = rand_set_state (UniformOf gen).
Proof.
  intros (opts & rnorm & -> & Hdeg & Hr & _).
  destruct (assemble_owned x0 gamma opts rnorm Hdeg)
    as (_ & _ & _ & _ & _ & -> & _).
  by rewrite Hr.
Qed.

Lemma built_on_state_buffer g x0 gamma gen w l c :
  built_on g x0 gamma gen ->
  state_buffer g w = Some (l, c) <->
  exists copy, gens w !! gen = Some (Internal l copy) /\ heap w !! l = Some c.
Proof.
  intros (opts & rnorm & -> & _ & Hr & _). by apply state_buffer_assemble.
Qed.

Lemma shares_built ga gb xa gammaa xb gammab gena genb l c w :
  built_on ga xa gammaa gena -> built_on gb xb gammab genb ->
  shares ga gb l c w <->
  gens w !! gena = Some (Internal l false) /\
  gens w !! genb = Some (Internal l false) /\
  heap w !! l = Some c.
Proof.
  intros Ha%built_on_PRNG Hb%built_on_PRNG. unfold shares. split.
  - intros (gena' & genb' & Ha' & Hb' & H).
    rewrite Ha in Ha'. rewrite Hb in Hb'. by simplify_eq.
  - intros H. by exists gena, genb.
Qed.

Lemma interleaves_built ga gb xa gammaa xb gammab gena genb l :
  built_on ga xa gammaa gena -> built_on gb xb gammab genb ->
  interleaves ga gb xa gammaa xb gammab l.
Proof.
  intros Ha Hb w c a b (Hga & Hgb & Hl)%(shares_built _ _ _ _ _ _ _ _ _ _ _ Ha Hb).
  simpl. unfold draw_then_draw.
  assert (Hloc : (l < length (heap w))%nat) by by eapply lookup_lt_Some.
  erewrite bind_Return; [|by eapply built_on_invoke].
  erewrite bind_Return; cycle 1.
  { eapply built_on_invoke; [done|done|]. simpl.
    by apply list_lookup_insert_eq. }
  eexists. split; [done|].
  apply (shares_built _ _ _ _ _ _ _ _ _ _ _ Ha Hb). simpl.
  split; [done|]. split; [done|].
  apply list_lookup_insert_eq. by rewrite length_insert.
Qed.

Lemma propagates_built ga gb xa gammaa xb gammab gena genb l :
  built_on ga xa gammaa gena -> built_on gb xb gammab genb ->
  propagates ga gb l.
Proof.
  intros Ha Hb w c ls cs (Hga & Hgb & Hl)%(shares_built _ _ _ _ _ _ _ _ _ _ _ Ha Hb)
    Hs Hv Hlen.
  rewrite (built_on_set_state _ _ _ _ Ha). unfold rand_set_state.
  erewrite bind_Return; [|by apply source_of_internal].
  unfold bind, read_array, read, write, ret. simpl.
  rewrite Hs. simpl. rewrite Hv. simpl. rewrite Hl. simpl.
  rewrite bool_decide_eq_true_2 by done.
  eexists. split; [done|].
  apply (shares_built _ _ _ _ _ _ _ _ _ _ _ Ha Hb). simpl.
  split; [done|]. split; [done|].
  apply list_lookup_insert_eq. by eapply lookup_lt_Some.
Qed.

Lemma detaches_built ga gb xa gammaa xb gammab gena genb l :
  built_on ga xa gammaa gena -> built_on gb xb gammab genb ->
  gena <> genb ->
  detaches ga gb xa gammaa xb gammab l.
Proof.
  intros Ha Hb Hne w c ls cs
    (Hga & Hgb & Hl)%(shares_built _ _ _ _ _ _ _ _ _ _ _ Ha Hb) Hs Hv Hlen.
  rewrite (built_on_set_state _ _ _ _ Ha). unfold rand_set_state.
  erewrite bind_Return; [|by apply source_of_internal].
  unfold bind, read_array, read, rebind, ret. simpl.
  rewrite Hs. simpl. rewrite Hv. simpl. rewrite Hl. simpl.
  rewrite bool_decide_eq_false_2 by done.
  assert (Hnl : ls <> l) by (intros ->; by simplify_eq).
  assert (Hgena : (gena < length (gens w))%nat) by by eapply lookup_lt_Some.
  assert (Hls : (ls < length (heap w))%nat) by by eapply lookup_lt_Some.
  eexists. split; [done|]. split; [done|]. split; [|split].
  - apply (built_on_state_buffer _ _ _ _ _ _ _ Ha). exists false. simpl.
    split; [by apply list_lookup_insert_eq|done].
  - apply (built_on_state_buffer _ _ _ _ _ _ _ Hb). exists false. simpl.
    split; [by rewrite list_lookup_insert_ne|done].
  - split.
    + intros a. eexists. split; [|split].
      * eapply built_on_invoke; [done| |done]. simpl.
        by apply list_lookup_insert_eq.
      * apply (built_on_state_buffer _ _ _ _ _ _ _ Ha). exists false. simpl.
        split; by apply list_lookup_insert_eq.
      * apply (built_on_state_buffer _ _ _ _ _ _ _ Hb). exists false. simpl.
        split; by rewrite list_lookup_insert_ne.
    + assert (Hl' : (l < length (heap w))%nat) by by eapply lookup_lt_Some.
      intros b. eexists. split; [|split].
      * eapply built_on_invoke; [done| |done]. simpl.
        by rewrite list_lookup_insert_ne.
      * apply (built_on_state_buffer _ _ _ _ _ _ _ Hb). exists false. simpl.
        split; [by rewrite list_lookup_insert_ne|].
        by apply list_lookup_insert_eq.
      * apply (built_on_state_buffer _ _ _ _ _ _ _ Ha). exists false. simpl.
        split; [by apply list_lookup_insert_eq|].
        by rewrite list_lookup_insert_ne.
Qed.

Lemma randn_shared (m : gmap string JsValue) l w rnorm w1 :
  m !! "prng" = None ->
  m !! "state" = Some (JsUint32Array l) ->
  m !! "copy" = Some (JsBoolean false) ->
  randn (Some (JsObject m)) w = Return rnorm w1 ->
  exists c,
    heap w !! l = Some c /\ verify_state c = true /\
    rnorm = mkRnorm (length (gens w)) (UniformOf (length (gens w))) /\
    w1 = with_gens (gens w ++ [Internal l false]) w.
Proof.
  intros Hp Hs Hc. unfold randn, hasOwnProp, get_prop. simpl.
  rewrite Hp, Hs, Hc. simpl.
  unfold bind, ret, read_array, new_internal, new_source, bind, ret. simpl.
  destruct (heap w !! l) as [c|]; [|done].
  destruct (verify_state c) eqn:Hv; [|done].
  intros [= <- <-]. by exists c.
Qed.

Lemma factory_shared arguments (m : gmap string JsValue) l w g w1 :
  options_of arguments = Some (JsObject m) ->
  m !! "prng" = None ->
  m !! "state" = Some (JsUint32Array l) ->
  m !! "copy" = Some (JsBoolean false) ->
  factory arguments w = Return g w1 ->
  built_on g (closure_x0 arguments) (closure_gamma arguments) (length (gens w)) /\
  w1 = with_gens (gens w ++ [Internal l false]) w /\
  exists c, heap w !! l = Some c /\ verify_state c = true.
Proof.
  intros Ho Hp Hs Hc (_ & rnorm & Hsrc & ->)%factory_inv.
  pose proof Hsrc as [_ Hdeg]%source_for_created.
  unfold source_for in Hsrc. rewrite Ho in Hsrc.
  rewrite source_from_options_no_prng in Hsrc by done.
  apply (randn_shared m l) in Hsrc as (c & Hl & Hv & -> & ->); try done.
  split; [|eauto].
  eexists _, _. split; [done|]. split; [|done].
  rewrite Hdeg. unfold external_prng. rewrite Ho. simpl.
  rewrite bool_decide_eq_false_2; [done|]. rewrite Hp. by intros [? ?].
Qed.

(** C6: take two generators built one after the other, each with an
    options object whose [state] is the same typed array and whose [copy]
    is false, and no [prng].  After construction both work on that array's
    buffer.  While they do, an invocation of one followed by an invocation
    of the other draws from one stream, in either order, and they go on
    sharing; assigning either of them a well-formed snapshot of the buffer's
    length writes it into the shared buffer, for both.  Assigning either of
    them a well-formed snapshot of another length rebinds that generator to
    the assigned buffer and leaves the other's buffer as it was; from then
    on the rebound generator draws from the new words, and neither
    generator's invocations touch the other's buffer. *)
Theorem shared_state_then_detach args1 args2
    (m1 m2 : gmap string JsValue) l w0 g1 w1 g2 w2 :
  options_of args1 = Some (JsObject m1) ->
  options_of args2 = Some (JsObject m2) ->
  m1 !! "prng" = None -> m2 !! "prng" = None ->
  m1 !! "state" = Some (JsUint32Array l) ->
  m2 !! "state" = Some (JsUint32Array l) ->
  m1 !! "copy" = Some (JsBoolean false) ->
  m2 !! "copy" = Some (JsBoolean false) ->
  factory args1 w0 = Return g1 w1 ->
  factory args2 w1 = Return g2 w2 ->
  let x1 := closure_x0 args1 in
  let gamma1 := closure_gamma args1 in
  let x2 := closure_x0 args2 in
  let gamma2 := closure_gamma args2 in
  (exists c, shares g1 g2 l c w2 /\ verify_state c = true) /\
  interleaves g1 g2 x1 gamma1 x2 gamma2 l /\
  interleaves g2 g1 x2 gamma2 x1 gamma1 l /\
  propagates g1 g2 l /\
  propagates g2 g1 l /\
  detaches g1 g2 x1 gamma1 x2 gamma2 l /\
  detaches g2 g1 x2 gamma2 x1 gamma1 l.
Proof.
  intros Ho1 Ho2 Hp1 Hp2 Hs1 Hs2 Hc1 Hc2 Hf1 Hf2.
  destruct (factory_shared _ _ _ _ _ _ Ho1 Hp1 Hs1 Hc1 Hf1)
    as (Hb1 & -> & c & Hl & Hv).
  destruct (factory_shared _ _ _ _ _ _ Ho2 Hp2 Hs2 Hc2 Hf2)
    as (Hb2 & -> & _).
  simpl in Hb2. rewrite length_app in Hb2. simpl in Hb2.
  assert (Hne : length (gens w0) <> (length (gens w0) + 1)%nat) by lia.
  simpl. split; [|split; [|split; [|split; [|split; [|split]]]]].
  - exists c. split; [|done].
    apply (shares_built _ _ _ _ _ _ _ _ _ _ _ Hb1 Hb2). simpl.
    split; [|split; [|done]].
    + rewrite lookup_app_l by (rewrite length_app; simpl; lia).
      apply lookup_snoc.
    + replace (length (gens w0) + 1)%nat
        with (length (gens w0 ++ [Internal l false]))
        by (rewrite length_app; simpl; lia).
      apply lookup_snoc.
  - by eapply interleaves_built.
  - by eapply interleaves_built.
  - by eapply propagates_built.
  - by eapply propagates_built.
  - by eapply detaches_built.
  - by eapply detaches_built.
Qed.

(** * Further properties of the two modules *)

(** ** More on NaN *)

Lemma nan_unique x : PrimFloat.is_nan x = true -> x = PrimFloat.nan.
Proof.
  rewrite is_nan_spec. intros H.
  rewrite <-(SF2Prim_Prim2SF x). by destruct (Prim2SF x).
Qed.

Lemma add_is_nan x y :
  PrimFloat.is_nan (PrimFloat.add x y) =
    PrimFloat.is_nan x || PrimFloat.is_nan y || opposite_infinities x y.
Proof.
  unfold opposite_infinities.
  rewrite !is_nan_spec, !is_infinity_spec, FloatAxioms.eqb_spec, add_spec.
  unfold SF64add. rewrite SFadd_nan.
  by destruct (Prim2SF x) as [sx|[]| |sx mx ex],
              (Prim2SF y) as [sy|[]| |sy my ey].
Qed.

Lemma positive_iff_guard gamma :
  PrimFloat.ltb PrimFloat.zero gamma =
    negb (isnan gamma || PrimFloat.leb gamma PrimFloat.zero).
Proof.
  unfold isnan. rewrite FloatAxioms.ltb_spec, FloatAxioms.leb_spec, is_nan_spec.
  change (Prim2SF PrimFloat.zero) with (S754_zero false).
  by destruct (Prim2SF gamma) as [[]|[]| |[] m e].
Qed.

(** X2: on number primitives the validator of the bound form and the guard
    of the unbound form draw the same line: [validate] returns no error for
    [x0] and [gamma] exactly when [cauchy2] does not answer NaN for them,
    and when it returns an error it is the location error exactly when [x0]
    is NaN. *)
Theorem validator_agrees_with_guard (x0 gamma : float) :
  match validate (JsNumber x0) (JsNumber gamma) with
  | None => invalid_params x0 gamma = false
  | Some err =>
    invalid_params x0 gamma = true /\
    err = (if isnan x0 then InvalidLocation (JsNumber x0)
           else InvalidScale (JsNumber gamma))
  end.
Proof.
  unfold validate, invalid_params. simpl.
  rewrite positive_iff_guard. unfold isnan.
  by destruct (PrimFloat.is_nan x0), (PrimFloat.is_nan gamma),
    (PrimFloat.leb gamma PrimFloat.zero).
Qed.

(** ** Binding the parameters *)

Lemma assemble_accessors x0 gamma x0' gamma' opts rnorm :
  let g := assemble x0 gamma opts rnorm in
  let g' := assemble x0' gamma' opts rnorm in
  NAME g = NAME g' /\ g_PRNG g = g_PRNG g' /\
  seed g = seed g' /\ seedLength g = seedLength g' /\
  state g = state g' /\ set_state g = set_state g' /\
  stateLength g = stateLength g' /\ byteLength g = byteLength g'.
Proof. unfold assemble. by destruct (truthy opts && _). Qed.

Lemma invoke_bound_unbound x0 gamma y opts opts' rnorm a tl w :
  invalid_params x0 gamma = false ->
  invoke (assemble (JsNumber x0) (JsNumber gamma) opts rnorm) a w
  = invoke (assemble JsUndefined y opts' rnorm) (x0 :: gamma :: tl) w.
Proof.
  intros Hok. rewrite !invoke_assemble. simpl.
  unfold cauchy1, cauchy2, invalid_params in *. simpl. by rewrite Hok.
Qed.

(** X1: binding [x0] and [gamma] at construction is the same as passing
    them at every call.  From one world, the factory called with validated
    parameters (and options, if any) and the factory called without them
    end alike: with the same error, or in the same world with two
    generators that have the same name, source and state accessors, and
    such that any invocation of the bound one, whatever arguments it is
    given, does what the unbound one does when called with [x0] and
    [gamma]. *)
Theorem binding_is_passing_per_call x0 gamma rest w :
  validate (JsNumber x0) (JsNumber gamma) = None ->
  match factory (JsNumber x0 :: JsNumber gamma :: rest) w,
        factory (unbound_form (JsNumber x0 :: JsNumber gamma :: rest)) w with
  | Return gb wb, Return gu wu =>
    wb = wu /\
    NAME gb = NAME gu /\ g_PRNG gb = g_PRNG gu /\
    seed gb = seed gu /\ seedLength gb = seedLength gu /\
    state gb = state gu /\ set_state gb = set_state gu /\
    stateLength gb = stateLength gu /\ byteLength gb = byteLength gu /\
    forall a tl w', invoke gb a w' = invoke gu (x0 :: gamma :: tl) w'
  | Throw eb wb, Throw eu wu => eb = eu /\ wb = wu
  | _, _ => False
  end.
Proof.
  intros Hv.
  assert (Hok : invalid_params x0 gamma = false).
  { unfold validate in Hv. simpl in Hv.
    destruct (PrimFloat.is_nan x0) eqn:Hx; [done|].
    destruct (PrimFloat.ltb PrimFloat.zero gamma) eqn:Hg; [|done].
    by apply valid_passes_guard. }
  rewrite !factory_eq.
  assert (Hsame : source_for (unbound_form (JsNumber x0 :: JsNumber gamma :: rest))
                  = source_for (JsNumber x0 :: JsNumber gamma :: rest)).
  { by destruct rest. }
  assert (Hopts : closure_opts (unbound_form (JsNumber x0 :: JsNumber gamma :: rest))
                  = closure_opts (JsNumber x0 :: JsNumber gamma :: rest)).
  { by destruct rest. }
  assert (Hx : closure_x0 (unbound_form (JsNumber x0 :: JsNumber gamma :: rest))
               = JsUndefined) by by destruct rest.
  replace (validation (unbound_form (JsNumber x0 :: JsNumber gamma :: rest)))
    with (@None JsError) by by destruct rest.
  rewrite Hsame, Hopts, Hx. simpl validation. rewrite Hv.
  destruct (source_for _ w) as [rnorm w'|e w']; [|done].
  split; [done|].
  pose proof (assemble_accessors (closure_x0 (JsNumber x0 :: JsNumber gamma :: rest))
                (closure_gamma (JsNumber x0 :: JsNumber gamma :: rest))
                JsUndefined
                (closure_gamma (unbound_form (JsNumber x0 :: JsNumber gamma :: rest)))
                (closure_opts (JsNumber x0 :: JsNumber gamma :: rest)) rnorm)
    as (? & ? & ? & ? & ? & ? & ? & ?).
  repeat (split; [done|]).
  intros a tl w''. simpl. by apply invoke_bound_unbound.
Qed.

(** ** Calls the guard does not catch *)

Lemma cauchy0_nan_scale rnorm x w :
  (rn_gen rnorm < length (gens w))%nat ->
  exists n1 w' n2 w'',
    rnorm_call rnorm w = Return n1 w' /\
    rnorm_call rnorm w' = Return n2 w'' /\
    cauchy0 rnorm x PrimFloat.nan w = Return PrimFloat.nan w''.
Proof.
  intros Hlive.
  destruct (cauchy0_two_draws rnorm x PrimFloat.nan w Hlive)
    as (n1 & w' & n2 & w'' & H1 & H2 & _ & H0).
  exists n1, w', n2, w''. split; [done|]. split; [done|].
  rewrite H0. f_equal. apply nan_unique.
  by rewrite add_is_nan, mul_is_nan, !orb_true_r.
Qed.

(** X3: the guard of the unbound form does not catch a missing argument.
    Called with no argument, or with a single one that is not NaN, an
    unbound generator calls its normal source twice and then returns NaN:
    unlike a call with an invalid number, the call advances the state. *)
Theorem missing_argument_draws_twice arguments w0 g w1 :
  factory arguments w0 = Return g w1 ->
  bound_params arguments = [] ->
  exists rnorm,
    rn_gen rnorm = length (gens w0) /\
    PRNG rnorm = g_PRNG g /\
    forall a w,
      (a = [] \/ exists x0, a = [x0] /\ isnan x0 = false) ->
      (rn_gen rnorm < length (gens w))%nat ->
      exists n1 w' n2 w'',
        rnorm_call rnorm w = Return n1 w' /\
        rnorm_call rnorm w' = Return n2 w'' /\
        invoke g a w = Return PrimFloat.nan w''.
Proof.
  intros (_ & rnorm & Hsrc & ->)%factory_inv Hu%unbound_closure.
  apply source_for_created in Hsrc as [[Hid _] _].
  exists rnorm. split; [done|]. split; [by rewrite g_PRNG_assemble|].
  intros a w Ha Hlive. rewrite invoke_assemble, Hu. simpl.
  destruct Ha as [->|(x0 & -> & Hx)]; unfold cauchy2; simpl.
  - by apply cauchy0_nan_scale.
  - rewrite Hx. simpl. by apply cauchy0_nan_scale.
Qed.

(** X5: a bound generator never throws in a world where its source exists,
    whatever arguments it is called with.  It calls the normal source the
    factory created twice, for [n1] and then [n2], and leaves the world as
    the second call left it.  Its result
    [x0 + gamma * (n1 / n2)] is NaN exactly when the scaled ratio is NaN
    (the ratio is NaN, or [gamma] is infinite and the ratio is zero), or
    when [x0], which the validator lets be infinite, and the scaled ratio
    are infinities of opposite sign. *)
Theorem bound_call_never_throws arguments w0 g w1 :
  factory arguments w0 = Return g w1 ->
  bound_params arguments <> [] ->
  exists x0 gamma rnorm,
    bound_params arguments = [JsNumber x0; JsNumber gamma] /\
    rn_gen rnorm = length (gens w0) /\
    PRNG rnorm = g_PRNG g /\
    forall a w,
      (length (gens w0) < length (gens w))%nat ->
      exists n1 w' n2 w'' v,
        rnorm_call rnorm w = Return n1 w' /\
        rnorm_call rnorm w' = Return n2 w'' /\
        invoke g a w = Return v w'' /\
        v = PrimFloat.add x0 (PrimFloat.mul gamma (PrimFloat.div n1 n2)) /\
        PrimFloat.is_nan (PrimFloat.mul gamma (PrimFloat.div n1 n2)) =
          PrimFloat.is_nan (PrimFloat.div n1 n2)
          || (PrimFloat.is_infinity gamma
              && PrimFloat.is_zero (PrimFloat.div n1 n2)) /\
        PrimFloat.is_nan v =
          PrimFloat.is_nan (PrimFloat.mul gamma (PrimFloat.div n1 n2))
          || opposite_infinities x0 (PrimFloat.mul gamma (PrimFloat.div n1 n2)).
Proof.
  intros (Hval & rnorm & Hsrc & ->)%factory_inv Hb.
  apply source_for_created in Hsrc as [[Hid _] _].
  destruct (validation_bound _ Hval Hb) as (x0 & gamma & rest & -> & Hx & Hg).
  exists x0, gamma, rnorm. split; [done|]. split; [done|].
  split; [by rewrite g_PRNG_assemble|]. intros a w Hlive.
  destruct (assemble_invoke_two_draws (JsNumber x0 :: JsNumber gamma :: rest)
              rnorm a x0 gamma w eq_refl) as (n1 & w' & n2 & w'' & H1 & H2 & Hinv).
  { by rewrite Hid. }
  exists n1, w', n2, w''. eexists. split; [exact H1|]. split; [exact H2|].
  split; [exact Hinv|]. split; [done|].
  destruct (positive_not_zero gamma Hg) as [Hn Hz].
  split.
  - rewrite mul_is_nan, Hn, Hz. simpl. by rewrite orb_false_r.
  - rewrite add_is_nan. unfold isnan in Hx. by rewrite Hx.
Qed.

(** ** Options and the positions of the arguments *)

Lemma source_from_options_prng (m : gmap string JsValue) f :
  m !! "prng" = Some (JsFunction f) ->
  source_from_options (JsObject m)
  = randn (Some (JsObject (<["prng" := JsFunction f]> ∅))).
Proof.
  intros Hp. unfold source_from_options, hasOwnProp, get_prop. simpl.
  by rewrite Hp.
Qed.

Lemma assemble_prng x0 gamma (m : gmap string JsValue) f rnorm :
  m !! "prng" = Some (JsFunction f) ->
  assemble x0 gamma (JsObject m) rnorm
  = assemble x0 gamma (JsObject (<["prng" := JsFunction f]> ∅)) rnorm.
Proof.
  intros Hp. unfold assemble, get_prop. by rewrite Hp, lookup_insert_eq.
Qed.

(** X4: when the options object has a [prng] function, nothing else in it
    is looked at.  The factory ends exactly as it does with the options
    object that holds that [prng] alone, whatever [seed], [state], [copy] or
    other keys came with it, well-formed or not. *)
Theorem prng_option_overrides_the_rest arguments (m : gmap string JsValue) f w :
  options_of arguments = Some (JsObject m) ->
  m !! "prng" = Some (JsFunction f) ->
  factory arguments w
  = factory (replace_options arguments
               (JsObject (<["prng" := JsFunction f]> ∅))) w.
Proof.
  intros Ho Hp.
  destruct arguments as [|x0 [|gamma [|o rest]]]; simplify_eq/=.
  - unfold bind. rewrite (source_from_options_prng m f),
      (source_from_options_prng (<["prng" := JsFunction f]> ∅) f)
      by (done || apply lookup_insert_eq).
    destruct (randn _ w); [|done]. by rewrite (assemble_prng _ _ m f).
  - destruct (validate x0 gamma); [done|]. unfold bind.
    rewrite (source_from_options_prng m f),
      (source_from_options_prng (<["prng" := JsFunction f]> ∅) f)
      by (done || apply lookup_insert_eq).
    destruct (randn _ w); [|done]. by rewrite (assemble_prng _ _ m f).
Qed.

(** ** Reading and assigning state *)



Lemma factory_built_on arguments w0 g w1 :
  factory arguments w0 = Return g w1 ->
  external_prng arguments = false ->
  built_on g (closure_x0 arguments) (closure_gamma arguments)
           (length (gens w0)).
Proof.
  intros (_ & rnorm & Hsrc & ->)%factory_inv Hext.
  apply source_for_created in Hsrc as [Hnew Hdeg]. rewrite Hext in Hnew, Hdeg.
  pose proof Hnew as [Hid _].
  apply created_internal in Hnew as (Hr & _).
  by eexists _, _.
Qed.

Lemma built_on_accessors g x0 gamma gen :
  built_on g x0 gamma gen ->
  seed g = rand_get_seed (UniformOf gen) /\
  seedLength g = rand_get_seedLength (UniformOf gen) /\
  state g = rand_get_state (UniformOf gen) /\
  stateLength g = rand_get_stateLength (UniformOf gen) /\
  byteLength g = rand_get_byteLength (UniformOf gen).
Proof.
  intros (opts & rnorm & -> & Hdeg & Hr & _).
  destruct (assemble_owned x0 gamma opts rnorm Hdeg)
    as (-> & -> & -> & -> & -> & _).
  by rewrite Hr.
Qed.


Lemma rand_set_state_invalid gen w l copy s :
  gens w !! gen = Some (Internal l copy) ->
  match s with
  | JsUint32Array ls =>
    match heap w !! ls with
    | Some c => verify_state c = false
    | None => True
    end
  | _ => True
  end ->
  rand_set_state (UniformOf gen) s w = Throw (InvalidState s) w.
Proof.
  intros Hg Hs. unfold rand_set_state.
  erewrite bind_Return; [|by apply source_of_internal].
  unfold bind, read_array, throw.
  destruct s as [| | | | | | |ls| |]; try done.
  destruct (heap w !! ls) as [c|]; [|done]. by rewrite Hs.
Qed.

(** X9: assigning to [state] something that is not a typed array, or a
    typed array whose words are not a well-formed state, throws the state
    error and changes nothing: the generator goes on from the state it
    had. *)
Theorem invalid_state_is_refused arguments w0 g w1 :
  factory arguments w0 = Return g w1 ->
  external_prng arguments = false ->
  forall w l c s,
    state_buffer g w = Some (l, c) ->
    match s with
    | JsUint32Array ls =>
      match heap w !! ls with
      | Some cs => verify_state cs = false
      | None => True
      end
    | _ => True
    end ->
    set_state g s w = Throw (InvalidState s) w.
Proof.
  intros Hf Hext w l c s Hbuf Hs.
  pose proof (factory_built_on _ _ _ _ Hf Hext) as Hb.
  pose proof Hbuf as (copy & Hg & Hl)%(built_on_state_buffer _ _ _ _ _ _ _ Hb).
  rewrite (built_on_set_state _ _ _ _ Hb).
  by eapply rand_set_state_invalid.
Qed.

Lemma rand_set_state_spec gen w l copy cur ls c :
  gens w !! gen = Some (Internal l copy) ->
  heap w !! l = Some cur ->
  heap w !! ls = Some c ->
  verify_state c = true ->
  exists w' l',
    rand_set_state (UniformOf gen) (JsUint32Array ls) w = Return tt w' /\
    gens w' !! gen = Some (Internal l' copy) /\
    heap w' !! l' = Some c /\
    heap w' !! ls = Some c /\
    (copy = true -> l' <> ls \/ l = ls).
Proof.
  intros Hg Hl Hs Hv. unfold rand_set_state.
  erewrite bind_Return; [|by apply source_of_internal].
  unfold bind, read_array, read, write, alloc, rebind, ret. simpl.
  rewrite Hs. simpl. rewrite Hv. simpl. rewrite Hl. simpl.
  assert (Hgen : (gen < length (gens w))%nat) by by eapply lookup_lt_Some.
  assert (Hloc : (l < length (heap w))%nat) by by eapply lookup_lt_Some.
  assert (Hlsl : (ls < length (heap w))%nat) by by eapply lookup_lt_Some.
  destruct copy; case_bool_decide; eexists _, _; (split; [done|]); simpl.
  - split; [done|]. split; [by apply list_lookup_insert_eq|].
    split; [|intros _; destruct (decide (l = ls)); eauto].
    destruct (decide (l = ls)) as [->|Hne].
    + by apply list_lookup_insert_eq.
    + by rewrite list_lookup_insert_ne.
  - split; [by apply list_lookup_insert_eq|]. split; [apply lookup_snoc|].
    split; [by apply lookup_app_l_Some|]. intros _. left. lia.
  - split; [done|]. split; [by apply list_lookup_insert_eq|].
    split; [|done].
    destruct (decide (l = ls)) as [->|Hne].
    + by apply list_lookup_insert_eq.
    + by rewrite list_lookup_insert_ne.
  - split; [by apply list_lookup_insert_eq|]. done.
Qed.

(** X8: assigning a well-formed snapshot to [state] and reading [state]
    back gives the snapshot's words: after the assignment the generator's
    buffer holds exactly those words, the assigned array still holds them,
    and the next read of [state] is a new array with the same words: one
    that did not exist before the read, so neither the generator's buffer
    nor the assigned array, and the read leaves the generator's buffer as
    it was. *)
Theorem assigned_state_reads_back arguments w0 g w1 :
  factory arguments w0 = Return g w1 ->
  external_prng arguments = false ->
  forall w l c ls cs,
    state_buffer g w = Some (l, c) ->
    heap w !! ls = Some cs -> verify_state cs = true ->
    exists w' l' lr w'',
      set_state g (JsUint32Array ls) w = Return tt w' /\
      state_buffer g w' = Some (l', cs) /\
      heap w' !! ls = Some cs /\
      state g w' = Return (JsUint32Array lr) w'' /\
      heap w' !! lr = None /\ lr <> l' /\ lr <> ls /\
      heap w'' !! lr = Some cs /\
      state_buffer g w'' = Some (l', cs).
Proof.
  intros Hf Hext w l c ls cs Hbuf Hs Hv.
  pose proof (factory_built_on _ _ _ _ Hf Hext) as Hb.
  pose proof Hbuf as (copy & Hg & Hl)%(built_on_state_buffer _ _ _ _ _ _ _ Hb).
  destruct (rand_set_state_spec _ _ _ _ _ _ _ Hg Hl Hs Hv)
    as (w' & l' & Hset & Hg' & Hl' & Hs' & _).
  destruct (built_on_accessors _ _ _ _ Hb) as (_ & _ & -> & _).
  rewrite (built_on_set_state _ _ _ _ Hb).
  assert (Hl'lt : (l' < length (heap w'))%nat) by by eapply lookup_lt_Some.
  assert (Hlslt : (ls < length (heap w'))%nat) by by eapply lookup_lt_Some.
  exists w', l'. eexists _, _. split; [done|]. split.
  { apply (built_on_state_buffer _ _ _ _ _ _ _ Hb). eauto. }
  split; [done|]. split; [by eapply rand_get_state_internal|].
  split; [by apply lookup_ge_None_2|]. split; [lia|]. split; [lia|].
  split; [apply lookup_snoc|].
  apply (built_on_state_buffer _ _ _ _ _ _ _ Hb). eexists.
  split; [exact Hg'|]. simpl. by apply lookup_app_l_Some.
Qed.

(** ** What an invocation touches *)

Lemma draws_built_on g x0 gamma gen calls w l copy c :
  built_on g x0 gamma gen ->
  gens w !! gen = Some (Internal l copy) ->
  heap w !! l = Some c ->
  draws g calls w =
    Return (pure_draws x0 gamma calls c).1
           (with_heap (<[l := (pure_draws x0 gamma calls c).2]> (heap w)) w).
Proof.
  intros (opts & rnorm & -> & _ & _ & Hid) Hg Hl.
  eapply draws_internal; [by rewrite Hid|done].
Qed.

(** X10: the invocations of a generator built without a caller's [prng]
    write to its own state buffer and to nothing else: after any run of
    invocations every other buffer holds what it held, and the generators
    of the world point where they pointed. *)
Theorem invocations_touch_own_buffer_only arguments w0 g w1 :
  factory arguments w0 = Return g w1 ->
  external_prng arguments = false ->
  forall w l c calls,
    state_buffer g w = Some (l, c) ->
    exists out w',
      draws g calls w = Return out w' /\
      length out = length calls /\
      gens w' = gens w /\
      length (heap w') = length (heap w) /\
      forall k, k <> l -> heap w' !! k = heap w !! k.
Proof.
  intros Hf Hext w l c calls Hbuf.
  pose proof (factory_built_on _ _ _ _ Hf Hext) as Hb.
  pose proof Hbuf as (copy & Hg & Hl)%(built_on_state_buffer _ _ _ _ _ _ _ Hb).
  eexists _, _. split; [by eapply draws_built_on|].
  split; [apply pure_draws_length|]. split; [done|]. simpl.
  split; [apply length_insert|].
  intros k Hk. by rewrite list_lookup_insert_ne.
Qed.

(** ** Generators that own their state *)

Lemma randn_state_owning (m : gmap string JsValue) l w c :
  owning m = true ->
  m !! "state" = Some (JsUint32Array l) ->
  heap w !! l = Some c ->
  randn (Some (JsObject m)) w =
    if verify_state c then
      Return (mkRnorm (length (gens w)) (UniformOf (length (gens w))))
             (with_gens (gens w ++ [Internal (length (heap w)) true])
                        (with_heap (heap w ++ [c]) w))
    else Throw (InvalidState (JsUint32Array l)) w.
Proof.
  unfold owning. intros [Hp%bool_decide_eq_true Hc]%andb_true_iff Hs Hl.
  unfold randn, hasOwnProp, get_prop. simpl. rewrite Hp, Hs. simpl.
  unfold bind, ret, throw, read_array, alloc, new_internal, new_source,
    bind, ret.
  destruct (m !! "copy") as [[| |[]| | | | | | |]|] eqn:E; try done; simpl;
    rewrite Hl; by destruct (verify_state c).
Qed.

Lemma factory_state_owning arguments (m : gmap string JsValue) l w g w1 :
  options_of arguments = Some (JsObject m) ->
  owning m = true ->
  m !! "state" = Some (JsUint32Array l) ->
  factory arguments w = Return g w1 ->
  exists c,
    heap w !! l = Some c /\ verify_state c = true /\
    built_on g (closure_x0 arguments) (closure_gamma arguments)
             (length (gens w)) /\
    w1 = with_gens (gens w ++ [Internal (length (heap w)) true])
                   (with_heap (heap w ++ [c]) w).
Proof.
  intros Ho Hown Hs Hf.
  assert (Hp : m !! "prng" = None).
  { unfold owning in Hown. by apply andb_true_iff in Hown as [?%bool_decide_eq_true _]. }
  assert (Hext : external_prng arguments = false).
  { unfold external_prng. rewrite Ho. simpl.
    rewrite bool_decide_eq_false_2; [done|]. rewrite Hp. by intros [? ?]. }
  pose proof (factory_built_on _ _ _ _ Hf Hext) as Hb.
  apply factory_inv in Hf as (_ & rnorm & Hsrc & _).
  unfold source_for in Hsrc. rewrite Ho in Hsrc.
  rewrite source_from_options_no_prng in Hsrc by done.
  destruct (heap w !! l) as [c|] eqn:Hl.
  - rewrite (randn_state_owning m l w c Hown Hs Hl) in Hsrc.
    destruct (verify_state c) eqn:Hv; [|done].
    injection Hsrc as _ <-. by exists c.
  - exfalso. revert Hsrc. unfold randn, hasOwnProp, get_prop. simpl.
    rewrite Hp, Hs. simpl.
    unfold bind, ret, throw, read_array.
    destruct (m !! "copy") as [[| |b| | | | | | |]|]; simpl;
      by rewrite ?Hl.
Qed.


(** ** Building a generator from another's state *)

Lemma unbound_closure_gamma arguments :
  bound_params arguments = [] -> closure_gamma arguments = JsUndefined.
Proof. by destruct arguments as [|v1 [|v2 rest]]. Qed.

Lemma owning_state_options s : owning (<["state" := s]> ∅) = true.
Proof.
  unfold owning. rewrite !lookup_insert_ne, !lookup_empty by done.
  by rewrite bool_decide_eq_true_2.
Qed.

(** X11: the README's recipe for a copy of a generator.  In any world where
    an unbound generator built without a caller's [prng] holds a
    well-formed state, reading its [state] and handing it to the factory
    as the [state] option succeeds, and the new generator starts where the
    original stands: for any list of calls, the new one run first and the
    original run after it produce the same numbers, and so they do with the
    original run first.  Neither moves the other. *)
Theorem clone_reproduces arguments w0 g w1 :
  factory arguments w0 = Return g w1 ->
  external_prng arguments = false ->
  bound_params arguments = [] ->
  forall w,
    valid_state g w ->
    exists g' w',
      clone g w = Return g' w' /\
      forall calls,
        (exists out wa wb,
           draws g' calls w' = Return out wa /\
           draws g calls wa = Return out wb) /\
        (exists out wa wb,
           draws g calls w' = Return out wa /\
           draws g' calls wa = Return out wb).
Proof.
  intros Hf Hext Hu w (l & c & Hbuf & Hv).
  pose proof (factory_built_on _ _ _ _ Hf Hext) as Hb.
  rewrite (unbound_closure _ Hu), (unbound_closure_gamma _ Hu) in Hb.
  pose proof Hbuf as (copy & Hg & Hl)%(built_on_state_buffer _ _ _ _ _ _ _ Hb).
  destruct (built_on_accessors _ _ _ _ Hb) as (_ & _ & Hstate & _).
  assert (Hloc : (l < length (heap w))%nat) by by eapply lookup_lt_Some.
  assert (Hgen : (length (gens w0) < length (gens w))%nat)
    by by eapply lookup_lt_Some.
  set (w2 := with_heap (heap w ++ [c]) w).
  set (opts := state_options (JsUint32Array (length (heap w)))).
  destruct (factory [opts] w2) as [g' w3|e w3] eqn:Hf'.
  - destruct (factory_state_owning [opts] (<["state" := JsUint32Array (length (heap w))]> ∅)
                (length (heap w)) w2 g' w3 eq_refl (owning_state_options _)
                (lookup_insert_eq _ _ _) Hf')
      as (c' & Hl' & _ & Hb' & ->).
    assert (c' = c) as ->.
    { unfold w2 in Hl'. simpl in Hl'. rewrite lookup_snoc in Hl'. congruence. }
    exists g'. eexists. split.
    { unfold clone. rewrite Hstate.
      erewrite bind_Return; [|by eapply rand_get_state_internal].
      exact Hf'. }
    simpl in Hb'. intros calls. split.
    + eexists _, _, _. split.
      { eapply draws_built_on; [exact Hb'|apply lookup_snoc|apply lookup_snoc]. }
      eapply draws_built_on; [exact Hb| |]; simpl.
      * by apply lookup_app_l_Some.
      * rewrite list_lookup_insert_ne by (rewrite length_app; simpl; lia).
        by apply lookup_app_l_Some, lookup_app_l_Some.
    + eexists _, _, _. split.
      { eapply draws_built_on; [exact Hb| |]; simpl.
        - by apply lookup_app_l_Some.
        - by apply lookup_app_l_Some, lookup_app_l_Some. }
      eapply draws_built_on; [exact Hb'| |]; simpl.
      * apply lookup_snoc.
      * rewrite list_lookup_insert_ne by (rewrite length_app; simpl; lia).
        apply lookup_snoc.
  - exfalso. revert Hf'. rewrite factory_eq. simpl.
    unfold source_for. simpl. unfold opts, state_options.
    rewrite source_from_options_no_prng by done.
    rewrite (randn_state_owning _ (length (heap w)) w2 c
               (owning_state_options _) (lookup_insert_eq _ _ _))
      by apply lookup_snoc.
    by rewrite Hv.
Qed.

(** ** Seeds *)

Lemma outputs_seeded arguments calls v w :
  validation arguments = None ->
  options_of arguments = Some (JsObject (<["seed" := v]> ∅)) ->
  result (outputs arguments calls w) =
    match seed_state v with
    | Some c =>
      inr (pure_draws (closure_x0 arguments) (closure_gamma arguments) calls c).1
    | None => inl (TypeError msg_option_seed [JsString "seed"; v])
    end.
Proof.
  intros Hv Ho. unfold outputs, bind. rewrite factory_eq, Hv.
  unfold source_for. rewrite Ho.
  rewrite source_from_options_no_prng by done.
  rewrite randn_seed. destruct (seed_state v) as [c|]; [|done].
  erewrite draws_internal; [done|..]; simpl; apply lookup_snoc.
Qed.

(** X12: a seed fixes the whole stream.  Two constructions with the same
    arguments, whose only option is a seed, in any two worlds, followed by
    the same list of calls, produce the same list of numbers, or fail with
    the same error. *)
Theorem seed_fixes_the_stream arguments calls v wA wB :
  options_of arguments = Some (JsObject (<["seed" := v]> ∅)) ->
  result (outputs arguments calls wA) = result (outputs arguments calls wB).
Proof.
  intros Ho. destruct (validation arguments) as [err|] eqn:Hv.
  - unfold outputs, bind. by rewrite !factory_eq, Hv.
  - by rewrite !(outputs_seeded _ _ v).
Qed.

(** ** What the parameters and the mode do not change *)

(** X13: the parameters of a call have no part in how the state advances.
    Two calls with valid parameters made from the same world, to a bound or
    an unbound generator, are the same two calls of the normal source the
    factory created, for [n1] and then [n2], and leave the world as the
    second of them left it; their results differ only by the location and
    scale applied to the one ratio [n1 / n2]. *)
Theorem parameters_do_not_steer_the_state arguments w0 g w1 :
  factory arguments w0 = Return g w1 ->
  exists rnorm,
    rn_gen rnorm = length (gens w0) /\
    PRNG rnorm = g_PRNG g /\
    forall a b x0 gamma x0' gamma' w,
      call_params arguments a = Some (x0, gamma) ->
      call_params arguments b = Some (x0', gamma') ->
      (length (gens w0) < length (gens w))%nat ->
      exists n1 w' n2 w'',
        rnorm_call rnorm w = Return n1 w' /\
        rnorm_call rnorm w' = Return n2 w'' /\
        invoke g a w =
          Return (PrimFloat.add x0 (PrimFloat.mul gamma (PrimFloat.div n1 n2))) w'' /\
        invoke g b w =
          Return (PrimFloat.add x0' (PrimFloat.mul gamma' (PrimFloat.div n1 n2))) w''.
Proof.
  intros (_ & rnorm & Hsrc & ->)%factory_inv.
  apply source_for_created in Hsrc as [[Hid _] _].
  exists rnorm. split; [done|]. split; [by rewrite g_PRNG_assemble|].
  intros a b x0 gamma x0' gamma' w Ha Hb Hlive. rewrite <-Hid in Hlive.
  destruct (assemble_invoke_two_draws arguments rnorm a x0 gamma w Ha Hlive)
    as (n1 & wa & n2 & wb & H1 & H2 & Hinv).
  destruct (assemble_invoke_two_draws arguments rnorm b x0' gamma' w Hb Hlive)
    as (n1' & wa' & n2' & wb' & H1' & H2' & Hinv').
  rewrite H1 in H1'. injection H1' as <- <-.
  rewrite H2 in H2'. injection H2' as <- <-.
  by exists n1, wa, n2, wb.
Qed.

(** X14: a generator built on a caller's [prng] cannot be rewound.  Its
    [state] reads as null and assigning it back does nothing, so capturing,
    drawing, restoring and drawing again yields the first run followed by
    the continuation of the stream: the two halves of one run of twice the
    calls. *)
Theorem degraded_generator_is_not_rewound arguments w0 g w1 :
  factory arguments w0 = Return g w1 ->
  external_prng arguments = true ->
  forall calls w,
    match draws g (calls ++ calls) w with
    | Return out w' =>
      replay g calls w =
        Return (take (length calls) out, drop (length calls) out) w'
    | Throw e w' => replay g calls w = Throw e w'
    end.
Proof.
  intros (_ & rnorm & Hsrc & ->)%factory_inv Hext calls w.
  apply source_for_created in Hsrc as [_ Hdeg]. rewrite Hext in Hdeg.
  destruct (assemble_degraded (closure_x0 arguments) (closure_gamma arguments)
              _ rnorm Hdeg) as (_ & _ & Hstate & _ & _ & Hset & _).
  unfold replay. rewrite Hstate, Hset, draws_app.
  unfold noop, bind, ret.
  destruct (draws _ calls w) as [v1 w2|] eqn:E1; [|done].
  apply draws_length in E1.
  destruct (draws _ calls w2) as [v2 w3|]; [|done].
  by rewrite take_app_length', drop_app_length'.
Qed.

End Theorems.

(** ** The validator *)

Example validate_example : validate (JsNumber 1%float) (JsNumber 2.5%float) = None.
Proof. reflexivity. Qed.

Example validate_nan_location :
  validate (JsNumber PrimFloat.nan) (JsNumber 1%float)
  = Some (InvalidLocation (JsNumber PrimFloat.nan)).
Proof. reflexivity. Qed.

Example validate_zero_scale :
  validate (JsNumber 0%float) (JsNumber 0%float)
  = Some (InvalidScale (JsNumber 0%float)).
Proof. reflexivity. Qed.

Example validate_negative_scale :
  validate (JsNumber 0%float) (JsNumber (-1)%float)
  = Some (InvalidScale (JsNumber (-1)%float)).
Proof. reflexivity. Qed.

(** C4 (as the code has it): the validator returns the location error
    exactly when [x0] is not a number primitive or is NaN, whatever [gamma]
    is; otherwise it returns the scale error exactly when [gamma] is not a
    number primitive greater than zero; otherwise it returns no error.
    Every finite number is accepted as a location, and so are the two
    infinities.  The validator is a function of its two arguments and
    touches nothing else. *)
Theorem validate_characterisation (x0 gamma : JsValue) :
  validate x0 gamma =
    (if negb (location_ok x0) then Some (InvalidLocation x0)
     else if negb (isPositive gamma) then Some (InvalidScale gamma)
     else None) /\
  implb (finite_number x0) (location_ok x0) = true /\
  location_ok (JsNumber PrimFloat.infinity) = true /\
  location_ok (JsNumber PrimFloat.neg_infinity) = true.
Proof.
  split; [|split; [|done]].
  - unfold validate, location_ok.
    destruct (isNumber x0), (isnan_value x0); reflexivity.
  - destruct x0 as [| | |x| | | | | |]; try done.
    unfold finite_number, PrimFloat.is_finite, location_ok, isNumber,
      isnan_value.
    by destruct (PrimFloat.is_nan x), (PrimFloat.is_infinity x).
Qed.

(** C4, counterexample: positive infinity is not a finite real, and the
    validator accepts it as a location. *)
Lemma validate_accepts_infinite_location :
  finite_number (JsNumber PrimFloat.infinity) = false /\
  validate (JsNumber PrimFloat.infinity) (JsNumber 1%float) = None.
Proof. split; reflexivity. Qed.

(** * The statements at work on the small collaborator *)

#[export] Instance toy_laws : CollaboratorLaws Toy.collaborator.
Proof.
  split.
  - intros [|n [|x rest]]; try done.
  - intros v c. destruct v as [| | |x| | | | | |]; try done. simpl.
    unfold Toy.of_seed. by destruct (Prim2SF x) as [| | |[] m e]; intros [= <-].
  - done.
Qed.

Example toy_unbound_built :
  factory Toy.unbound_args Toy.w0 = Return Toy.g_unbound Toy.w_seeded.
Proof. reflexivity. Qed.

Example toy_bound_built :
  factory Toy.bound_args Toy.w0 = Return Toy.g_bound Toy.w_seeded.
Proof. reflexivity. Qed.

Example toy_degraded_built :
  factory [Toy.prng_options] Toy.w0 = Return Toy.g_degraded Toy.w_degraded.
Proof. reflexivity. Qed.

Example toy_first_built :
  factory [Toy.shared_options] Toy.w_caller = Return Toy.g_first Toy.w_first.
Proof. reflexivity. Qed.

Example toy_second_built :
  factory [JsNumber 2%float; JsNumber 3%float; Toy.shared_options] Toy.w_first
  = Return Toy.g_second Toy.w_shared.
Proof. reflexivity. Qed.

(** The spec's validation examples on the factory itself. *)
Example factory_nan_location :
  factory [JsNumber PrimFloat.nan; JsNumber 1%float] Toy.w0
  = Throw (InvalidLocation (JsNumber PrimFloat.nan)) Toy.w0.
Proof. reflexivity. Qed.

Example factory_zero_scale :
  factory [JsNumber 0%float; JsNumber 0%float] Toy.w0
  = Throw (InvalidScale (JsNumber 0%float)) Toy.w0.
Proof. reflexivity. Qed.

Example factory_infinite_location :
  exists g w,
    factory [JsNumber PrimFloat.infinity; JsNumber 1%float] Toy.w0
    = Return g w.
Proof. by eexists _, _. Qed.

Example factory_prng_not_callable :
  factory [JsObject (<["prng" := JsNumber 123%float]> ∅)] Toy.w0
  = Throw (InvalidOptions_prng (JsNumber 123%float)) Toy.w0.
Proof. reflexivity. Qed.

(** C1 at work: one hundred invocations, replayed. *)
Lemma replay_is_deterministic_witness :
  exists out w',
    replay Toy.g_unbound (replicate 100 [2%float; 1%float]) Toy.w_seeded
    = Return (out, out) w' /\
    length out = 100%nat.
Proof.
  destruct (replay_is_deterministic Toy.unbound_args Toy.w0 Toy.g_unbound
              Toy.w_seeded eq_refl eq_refl) as (Hv & _ & H).
  destruct (H Toy.w_seeded (replicate 100 [2%float; 1%float]) Hv)
    as (out & w' & Hr & Hl & _).
  exists out, w'. split; [exact Hr|]. rewrite Hl. apply length_replicate.
Defined.

(** C2 at work: the bound generator called with no arguments. *)
Lemma invoke_draws_twice_witness :
  exists n1 n2 w'',
    invoke Toy.g_bound [] Toy.w_seeded
    = Return (PrimFloat.add 2 (PrimFloat.mul 3 (PrimFloat.div n1 n2))) w''.
Proof.
  destruct (invoke_draws_twice Toy.bound_args Toy.w0 Toy.g_bound
              Toy.w_seeded eq_refl)
    as (rnorm & Hid & Hlive & _ & _ & _ & H).
  destruct (H [] 2%float 3%float Toy.w_seeded eq_refl Hlive)
    as (n1 & w' & n2 & w'' & _ & _ & Hinv).
  exists n1, n2, w''. exact Hinv.
Defined.

(** C3 at work: a negative scale gives NaN, a valid call gives a number. *)
Lemma unbound_call_never_throws_witness :
  invoke Toy.g_unbound [1%float; (-1.5)%float] Toy.w_seeded
  = Return PrimFloat.nan Toy.w_seeded /\
  exists rnorm n1 w' n2 w'',
    rnorm_call rnorm Toy.w_seeded = Return n1 w' /\
    rnorm_call rnorm w' = Return n2 w'' /\
    invoke Toy.g_unbound [0%float; 2%float] Toy.w_seeded
    = Return (PrimFloat.add 0 (PrimFloat.mul 2 (PrimFloat.div n1 n2))) w''.
Proof.
  destruct (unbound_call_never_throws Toy.unbound_args Toy.w0 Toy.g_unbound
              Toy.w_seeded eq_refl eq_refl) as [Hbad (rnorm & _ & _ & Hok)].
  split.
  - apply Hbad. reflexivity.
  - destruct (Hok 0%float 2%float [] Toy.w_seeded eq_refl eq_refl)
      as (n1 & w' & n2 & w'' & v & H1 & H2 & Hinv & Hv & _).
    + simpl. lia.
    + exists rnorm, n1, w', n2, w''. rewrite <-Hv. by repeat split.
Defined.

(** C3, counterexample: an unbound generator whose normal source draws 0.0
    twice, called with the finite location 1 and the positive scale 1,
    returns NaN. *)
Lemma unbound_call_can_return_nan :
  factory [Toy.prng_options] Toy.w0 = Return Toy.g_degraded Toy.w_degraded /\
  PrimFloat.is_finite 1%float = true /\
  PrimFloat.ltb PrimFloat.zero 1%float = true /\
  exists v w',
    invoke Toy.g_degraded [1%float; 1%float] Toy.w_degraded = Return v w' /\
    PrimFloat.is_nan v = true.
Proof.
  repeat split. by eexists _, _.
Qed.

(** C5 at work: the degraded generator. *)
Lemma state_accessors_witness :
  (forall w, seed Toy.g_degraded w = Return JsNull w) /\
  (forall w, seedLength Toy.g_degraded w = Return JsNull w) /\
  (forall w, state Toy.g_degraded w = Return JsNull w) /\
  (forall w, stateLength Toy.g_degraded w = Return JsNull w) /\
  (forall w, byteLength Toy.g_degraded w = Return JsNull w) /\
  (forall s w, set_state Toy.g_degraded s w = Return tt w) /\
  (forall w, toJSON Toy.g_degraded w = Return JsNull w).
Proof.
  exact (state_accessors [Toy.prng_options] Toy.w0 Toy.g_degraded
           Toy.w_degraded eq_refl).
Defined.

(** C7 at work: the scenario of the specification. *)
Lemma seeded_first_output_witness :
  result (first_output Toy.bound_args [] Toy.w0)
  = result (first_output Toy.unbound_args [2%float; 3%float] Toy.w_caller).
Proof.
  exact (seeded_first_output_binding_independent 2%float 3%float
           (JsNumber 12345%float) Toy.w0 Toy.w_caller eq_refl).
Defined.

(** C8 at work: the bound generator serializes its parameters. *)
Lemma toJSON_shape_witness :
  exists m w',
    toJSON Toy.g_bound Toy.w_seeded = Return (JsObject m) w' /\
    m !! "type" = Some (JsString "PRNG") /\
    m !! "name" = Some (JsString "cauchy") /\
    (exists js,
       m !! "state" = Some (JsObject js) /\
       js !! "type" = Some (JsString "Uint32Array") /\
       js !! "data" = Some (JsArray [JsNumber 0%float; JsNumber 12345%float])) /\
    m !! "params" = Some (JsArray [JsNumber 2%float; JsNumber 3%float]).
Proof.
  destruct (toJSON_shape Toy.bound_args Toy.w0 Toy.g_bound Toy.w_seeded
              eq_refl eq_refl) as [_ H].
  destruct (H Toy.w_seeded 0%nat [0; 12345] eq_refl)
    as (m & w' & Hj & Ht & Hn & (js & Hs & Hjt & Hjd & _) & Hp & _).
  exists m, w'. repeat split; try assumption.
  exists js. repeat split; assumption.
Defined.

(** C9 at work: a number where the options belong. *)
Lemma options_errors_witness :
  factory [JsNumber 2%float; JsNumber 3%float; JsNumber 5%float] Toy.w0
  = Throw (InvalidOptions (JsNumber 5%float)) Toy.w0.
Proof.
  destruct (options_errors
              [JsNumber 2%float; JsNumber 3%float; JsNumber 5%float]
              (JsNumber 5%float) Toy.w0 eq_refl) as (_ & _ & H & _).
  apply H; reflexivity.
Defined.

(** C10 at work: an invalid call between two valid ones. *)
Lemma invalid_call_draws_nothing_witness :
  result (draws Toy.g_unbound
            [[2%float; 3%float]; [2%float; PrimFloat.nan]; [2%float; 3%float]]
            Toy.w_seeded)
  = inr [0x1.f1a97339dfac9p+1%float; PrimFloat.nan; (-0x1.2a5f5682a5f58p+0)%float].
Proof.
  destruct (invalid_call_draws_nothing Toy.unbound_args Toy.w0 Toy.g_unbound
              Toy.w_seeded 2%float PrimFloat.nan eq_refl eq_refl eq_refl)
    as [_ H].
  pose proof (H [[2%float; 3%float]] [[2%float; 3%float]] Toy.w_seeded) as E.
  simpl app in E. rewrite E. reflexivity.
Defined.

Example toy_shares :
  shares Toy.g_first Toy.g_second 0%nat [0; 7; 7] Toy.w_shared.
Proof. exists 0%nat, 1%nat. repeat split; reflexivity. Qed.

(** C6 at work: two generators on the caller's three-word buffer.  Drawn
    after the first, the second gives another number than it gives when it
    draws alone; and assigning the first a four-word state leaves the second
    on the old buffer. *)
Lemma shared_state_then_detach_witness :
  (exists v1 v2 w',
     draw_then_draw Toy.g_first [2%float; 3%float] Toy.g_second []
                    Toy.w_shared = Return (v1, v2) w' /\
     result (invoke Toy.g_second [] Toy.w_shared) = inr v1 /\
     PrimFloat.eqb v1 v2 = false) /\
  exists w',
    set_state Toy.g_first (JsUint32Array 1%nat) Toy.w_shared = Return tt w' /\
    state_buffer Toy.g_first w' = Some (1%nat, [0; 9; 9; 9]) /\
    state_buffer Toy.g_second w' = Some (0%nat, [0; 7; 7]).
Proof.
  destruct (shared_state_then_detach
              [Toy.shared_options]
              [JsNumber 2%float; JsNumber 3%float; Toy.shared_options]
              (<["state" := JsUint32Array 0%nat]> (<["copy" := JsBoolean false]> ∅))
              (<["state" := JsUint32Array 0%nat]> (<["copy" := JsBoolean false]> ∅))
              0%nat Toy.w_caller Toy.g_first Toy.w_first Toy.g_second
              Toy.w_shared eq_refl eq_refl eq_refl eq_refl eq_refl eq_refl
              eq_refl eq_refl eq_refl eq_refl)
    as (_ & Hi & _ & _ & _ & Hd & _).
  split.
  - destruct (Hi Toy.w_shared [0; 7; 7] [2%float; 3%float] [] toy_shares)
      as (w' & Hdraw & _).
    eexists _, _, w'. split; [exact Hdraw|]. split; reflexivity.
  - destruct (Hd Toy.w_shared [0; 7; 7] 1%nat [0; 9; 9; 9] toy_shares
                eq_refl eq_refl) as (w' & Hset & _ & Ha & Hb & _).
    + simpl. lia.
    + exists w'. repeat split; assumption.
Defined.

(** * The further properties at work *)

Example toy_owner_built :
  factory [state_options (JsUint32Array 0%nat)] Toy.w_caller
  = Return Toy.g_owner Toy.w_owner.
Proof. reflexivity. Qed.

Example toy_seeded_valid : valid_state Toy.g_unbound Toy.w_seeded.
Proof. exists 0%nat, [0; 12345]. split; reflexivity. Qed.

(** X1 at work: the bound and the unbound generator of the seed 12345. *)
Lemma binding_is_passing_per_call_witness :
  invoke Toy.g_bound [7%float] Toy.w_seeded
  = invoke Toy.g_unbound [2%float; 3%float] Toy.w_seeded.
Proof.
  pose proof (binding_is_passing_per_call 2%float 3%float [Toy.seed_options]
                Toy.w0 eq_refl) as H.
  change (factory [JsNumber 2%float; JsNumber 3%float; Toy.seed_options] Toy.w0)
    with (Return Toy.g_bound Toy.w_seeded) in H.
  change (factory (unbound_form [JsNumber 2%float; JsNumber 3%float; Toy.seed_options]) Toy.w0)
    with (Return Toy.g_unbound Toy.w_seeded) in H.
  simpl in H. destruct H as (_ & _ & _ & _ & _ & _ & _ & _ & _ & H).
  apply (H [7%float] []).
Defined.

(** X3 at work: the unbound generator called with nothing moves its state
    by two draws and answers NaN. *)
Lemma missing_argument_draws_twice_witness :
  exists w',
    invoke Toy.g_unbound [] Toy.w_seeded = Return PrimFloat.nan w' /\
    heap w' = [[2; 2802067423]].
Proof.
  destruct (missing_argument_draws_twice Toy.unbound_args Toy.w0 Toy.g_unbound
              Toy.w_seeded eq_refl eq_refl) as (rnorm & Hid & _ & H).
  destruct (H [] Toy.w_seeded (or_introl eq_refl)) as (n1 & w' & n2 & w'' & _ & _ & Hinv).
  - rewrite Hid. simpl. lia.
  - exists w''. split; [exact Hinv|].
    change (invoke Toy.g_unbound [] Toy.w_seeded)
      with (Return PrimFloat.nan (with_heap [[2; 2802067423]] Toy.w_seeded))
      in Hinv.
    by injection Hinv as <-.
Defined.

(** X4 at work: what stands beside the [prng] is not looked at. *)
Lemma prng_option_overrides_the_rest_witness :
  factory [JsObject Toy.crowded_options] Toy.w0
  = Return Toy.g_degraded Toy.w_degraded.
Proof.
  rewrite (prng_option_overrides_the_rest [JsObject Toy.crowded_options]
             Toy.crowded_options (UserFunction 0%nat) Toy.w0 eq_refl eq_refl).
  reflexivity.
Defined.

(** X5 at work: the bound generator, called with arguments it ignores. *)
Lemma bound_call_never_throws_witness :
  exists rnorm n1 w' n2 w'' v,
    rnorm_call rnorm Toy.w_seeded = Return n1 w' /\
    rnorm_call rnorm w' = Return n2 w'' /\
    invoke Toy.g_bound [7%float] Toy.w_seeded = Return v w'' /\
    PrimFloat.is_nan v = false.
Proof.
  destruct (bound_call_never_throws Toy.bound_args Toy.w0 Toy.g_bound
              Toy.w_seeded eq_refl ltac:(done))
    as (x0 & gamma & rnorm & _ & _ & _ & H).
  destruct (H [7%float] Toy.w_seeded)
    as (n1 & w' & n2 & w'' & v & H1 & H2 & Hinv & _).
  - simpl. lia.
  - exists rnorm, n1, w', n2, w'', v.
    split; [exact H1|]. split; [exact H2|]. split; [exact Hinv|].
    change (invoke Toy.g_bound [7%float] Toy.w_seeded)
      with (Return 0x1.f1a97339dfac9p+1%float
                   (with_heap [[2; 2802067423]] Toy.w_seeded))
      in Hinv.
    by injection Hinv as <- _.
Defined.



(** X8 at work: the seeded generator is assigned the caller's four words. *)
Lemma assigned_state_reads_back_witness :
  exists w' l' lr w'',
    set_state Toy.g_first (JsUint32Array 1%nat) Toy.w_shared = Return tt w' /\
    state_buffer Toy.g_first w' = Some (l', [0; 9; 9; 9]) /\
    state Toy.g_first w' = Return (JsUint32Array lr) w'' /\
    heap w' !! lr = None /\ lr <> l' /\
    heap w'' !! lr = Some [0; 9; 9; 9].
Proof.
  destruct (assigned_state_reads_back [Toy.shared_options] Toy.w_caller
              Toy.g_first Toy.w_first eq_refl eq_refl
              Toy.w_shared 0%nat [0; 7; 7] 1%nat [0; 9; 9; 9]
              eq_refl eq_refl eq_refl)
    as (w' & l' & lr & w'' & H1 & H2 & _ & H3 & H4 & H5 & _ & H6 & _).
  by exists w', l', lr, w''.
Defined.

(** X9 at work: a string, and a one-word array, assigned to [state]. *)
Lemma invalid_state_is_refused_witness :
  set_state Toy.g_unbound (JsString "state") Toy.w_seeded
  = Throw (InvalidState (JsString "state")) Toy.w_seeded /\
  set_state Toy.g_unbound (JsUint32Array 5%nat) Toy.w_seeded
  = Throw (InvalidState (JsUint32Array 5%nat)) Toy.w_seeded.
Proof.
  pose proof (invalid_state_is_refused Toy.unbound_args Toy.w0 Toy.g_unbound
                Toy.w_seeded eq_refl eq_refl Toy.w_seeded 0%nat [0; 12345]) as H.
  split; apply H; done.
Defined.

(** X10 at work: the owner of a copy draws; the caller's other array is
    as it was. *)
Lemma invocations_touch_own_buffer_only_witness :
  exists out w',
    draws Toy.g_owner [[2%float; 3%float]] Toy.w_owner = Return out w' /\
    gens w' = gens Toy.w_owner /\
    heap w' !! 1%nat = Some [0; 9; 9; 9].
Proof.
  destruct (invocations_touch_own_buffer_only
              [state_options (JsUint32Array 0%nat)] Toy.w_caller Toy.g_owner
              Toy.w_owner eq_refl eq_refl Toy.w_owner 2%nat [0; 7; 7]
              [[2%float; 3%float]] eq_refl)
    as (out & w' & Hd & _ & Hg & _ & Hk).
  exists out, w'. split; [exact Hd|]. split; [exact Hg|].
  rewrite Hk by lia. reflexivity.
Defined.

(** X11 at work: a copy of the seeded generator. *)
Lemma clone_reproduces_witness :
  exists g' w' out wa wb,
    clone Toy.g_unbound Toy.w_seeded = Return g' w' /\
    draws g' [[2%float; 3%float]; [0%float; 1%float]] w' = Return out wa /\
    draws Toy.g_unbound [[2%float; 3%float]; [0%float; 1%float]] wa
    = Return out wb.
Proof.
  destruct (clone_reproduces Toy.unbound_args Toy.w0 Toy.g_unbound Toy.w_seeded
              eq_refl eq_refl eq_refl Toy.w_seeded toy_seeded_valid)
    as (g' & w' & Hc & H).
  destruct (H [[2%float; 3%float]; [0%float; 1%float]])
    as [(out & wa & wb & H1 & H2) _].
  by exists g', w', out, wa, wb.
Defined.

(** X12 at work: the seed 12345 in two worlds. *)
Lemma seed_fixes_the_stream_witness :
  result (outputs Toy.unbound_args [[2%float; 3%float]; [2%float; 3%float]] Toy.w0)
  = result (outputs Toy.unbound_args [[2%float; 3%float]; [2%float; 3%float]]
                    Toy.w_caller).
Proof.
  exact (seed_fixes_the_stream Toy.unbound_args
           [[2%float; 3%float]; [2%float; 3%float]] (JsNumber 12345%float)
           Toy.w0 Toy.w_caller eq_refl).
Defined.

(** X13 at work: two parameter pairs, one ratio, one world. *)
Lemma parameters_do_not_steer_the_state_witness :
  exists rnorm n1 w' n2 w'',
    rnorm_call rnorm Toy.w_seeded = Return n1 w' /\
    rnorm_call rnorm w' = Return n2 w'' /\
    invoke Toy.g_unbound [2%float; 3%float] Toy.w_seeded
    = Return (PrimFloat.add 2 (PrimFloat.mul 3 (PrimFloat.div n1 n2))) w'' /\
    invoke Toy.g_unbound [0%float; 1%float] Toy.w_seeded
    = Return (PrimFloat.add 0 (PrimFloat.mul 1 (PrimFloat.div n1 n2))) w''.
Proof.
  destruct (parameters_do_not_steer_the_state Toy.unbound_args Toy.w0
              Toy.g_unbound Toy.w_seeded eq_refl) as (rnorm & _ & _ & H).
  exists rnorm.
  apply (H [2%float; 3%float] [0%float; 1%float]);
    [reflexivity|reflexivity|simpl; lia].
Defined.

(** X14 at work: the degraded generator replays nothing. *)
Lemma degraded_generator_is_not_rewound_witness :
  exists out w',
    draws Toy.g_degraded [[2%float; 3%float]; [2%float; 3%float]] Toy.w_degraded
    = Return out w' /\
    replay Toy.g_degraded [[2%float; 3%float]] Toy.w_degraded
    = Return (take 1 out, drop 1 out) w'.
Proof.
  pose proof (degraded_generator_is_not_rewound [Toy.prng_options] Toy.w0
                Toy.g_degraded Toy.w_degraded eq_refl eq_refl
                [[2%float; 3%float]] Toy.w_degraded) as H.
  simpl app in H.
  destruct (draws Toy.g_degraded _ Toy.w_degraded) as [out w'|e w'] eqn:E.
  - by exists out, w'.
  - discriminate E.
Defined.
